(** * Octant log sink ([internal/log/sink.go]): parser and listener registry

    A shallow embedding of [ConvertBytesToMessage] and of the methods of
    [OctantSink] ([Write], [send], [Sync], [Close], [Listen] and the
    [ListenCancelFunc] closure it returns), followed by the properties of
    the log fan-out that the design document states about them.

    Go strings and byte slices are byte sequences: they are [string]s whose
    [ascii] characters are the bytes.  Channels are heap objects shared by the
    listener map and by the cancel closures, so the model keeps a store of
    channels and the map holds references into it. *)

From Stdlib Require Import ZArith Ascii String List Bool Lia.
From stdpp Require Import gmap strings list fin_maps.

Local Open Scope Z_scope.

(** ** Bytes and strings *)

Definition tab : ascii := "009"%char.

(** [len(p)] of a Go string or byte slice. *)
Definition len (s : string) : Z := Z.of_nat (String.length s).

Definition byte_val (c : ascii) : Z := Z.of_nat (nat_of_ascii c).

(** ** The Go library functions the parser calls

    [strings.TrimSpace], [strings.Split] and [time.Parse] belong to the Go
    standard library, not to this repository; they are modelled here from
    their documented behaviour, specialised to the arguments the sink passes
    (separator ["\t"], layout ["2006-01-02T15:04:05.000Z0700"]). *)
Module strings.

(** [asciiSpace]: tab, newline, vertical tab, form feed, carriage return
    and space. *)
Definition is_ascii_space (c : ascii) : bool :=
  let n := byte_val c in
  ((9 <=? n) && (n <=? 13)) || (n =? 32).

(** UTF-8 encodings of the white space runes of [unicode.IsSpace] above
    U+007F that take two bytes: U+0085 and U+00A0. *)
Definition is_space2 (a b : ascii) : bool :=
  (byte_val a =? 194) && ((byte_val b =? 133) || (byte_val b =? 160)).

(** The three-byte ones: U+1680, U+2000 to U+200A, U+2028, U+2029, U+202F,
    U+205F and U+3000. *)
Definition is_space3 (a b c : ascii) : bool :=
  let x := byte_val a in
  let y := byte_val b in
  let z := byte_val c in
  ((x =? 225) && (y =? 154) && (z =? 128))
  || ((x =? 226) && (y =? 128)
      && (((128 <=? z) && (z <=? 138)) || (z =? 168) || (z =? 169) || (z =? 175)))
  || ((x =? 226) && (y =? 129) && (z =? 159))
  || ((x =? 227) && (y =? 128) && (z =? 128)).

(** [TrimLeftFunc(s, unicode.IsSpace)]: drops leading white space runes.
    A rune is decoded from its well-formed shortest encoding only, so a
    leading rune is white space exactly when the string starts with one of
    the byte sequences above. *)
Fixpoint TrimLeft (s : string) : string :=
  match s with
  | EmptyString => s
  | String a s1 =>
      if is_ascii_space a then TrimLeft s1
      else match s1 with
           | EmptyString => s
           | String b s2 =>
               if is_space2 a b then TrimLeft s2
               else match s2 with
                    | EmptyString => s
                    | String c s3 => if is_space3 a b c then TrimLeft s3 else s
                    end
           end
  end.

(** The same scan on the reversed string, for the right end. *)
Fixpoint TrimLeftRev (s : string) : string :=
  match s with
  | EmptyString => s
  | String a s1 =>
      if is_ascii_space a then TrimLeftRev s1
      else match s1 with
           | EmptyString => s
           | String b s2 =>
               if is_space2 b a then TrimLeftRev s2
               else match s2 with
                    | EmptyString => s
                    | String c s3 => if is_space3 c b a then TrimLeftRev s3 else s
                    end
           end
  end.

Definition TrimRight (s : string) : string :=
  String.rev (TrimLeftRev (String.rev s)).

(** [strings.TrimSpace]. *)
Definition TrimSpace (s : string) : string := TrimRight (TrimLeft s).

(** [strings.Split(s, sep)] for a separator of one byte: the substrings
    between the separators, one more than there are separators. *)
Fixpoint Split (s : string) (sep : ascii) : list string :=
  match s with
  | EmptyString => [EmptyString]
  | String c s' =>
      if Ascii.eqb c sep then EmptyString :: Split s' sep
      else match Split s' sep with
           | p :: ps => String c p :: ps
           | [] => [String c EmptyString]
           end
  end.

End strings.

Module time.

(** The failures of [time.Parse], all returned as a [*time.ParseError]. *)
Inductive ParseError : Type :=
| errBad                      (* the value does not match the layout *)
| errRange (elem : string)    (* ": <elem> out of range" *)
| errExtraText (rest : string)
| errDayOutOfRange.

(** A [time.Time], as far as the sink looks at it. *)
Record Time : Type := mkTime { unixSec : Z; nanos : Z }.

Definition Unix (t : Time) : Z := unixSec t.

Definition isDigitB (c : ascii) : bool :=
  (48 <=? byte_val c) && (byte_val c <=? 57).

Definition digit (c : ascii) : Z := byte_val c - 48.

(** [getnum(s, fixed)]: one or two leading digits; two when [fixed]. *)
Definition getnum (s : string) (fixed : bool) : ParseError + (Z * string) :=
  match s with
  | String a s1 =>
      if isDigitB a then
        match s1 with
        | String b s2 =>
            if isDigitB b then inr (digit a * 10 + digit b, s2)
            else if fixed then inl errBad else inr (digit a, s1)
        | EmptyString => if fixed then inl errBad else inr (digit a, s1)
        end
      else inl errBad
  | EmptyString => inl errBad
  end.

(** [skip(value, prefix)] for a layout prefix of one byte that is not a
    space. *)
Definition skip (value : string) (c : ascii) : ParseError + string :=
  match value with
  | String a rest => if Ascii.eqb a c then inr rest else inl errBad
  | EmptyString => inl errBad
  end.

(** The chunk [2006]: four bytes, all digits. *)
Definition longYear (value : string) : ParseError + (Z * string) :=
  match value with
  | String a (String b (String c (String d rest))) =>
      if isDigitB a && isDigitB b && isDigitB c && isDigitB d
      then inr (((digit a * 10 + digit b) * 10 + digit c) * 10 + digit d, rest)
      else inl errBad
  | _ => inl errBad
  end.

(** The chunk [.000] through [parseNanoseconds(value, 4)]: a period or a
    comma, then [atoi] of three bytes, which takes three digits or a sign
    and two digits; a negative result is out of range. *)
Definition fracSecond (value : string) : ParseError + (Z * string) :=
  match value with
  | String p (String a (String b (String c rest))) =>
      if Ascii.eqb p "."%char || Ascii.eqb p ","%char then
        if isDigitB a && isDigitB b && isDigitB c
        then inr (((digit a * 10 + digit b) * 10 + digit c) * 1000000, rest)
        else if (Ascii.eqb a "+"%char || Ascii.eqb a "-"%char)
                && isDigitB b && isDigitB c
        then let n := digit b * 10 + digit c in
             if Ascii.eqb a "-"%char && (0 <? n)
             then inl (errRange "fractional second")
             else inr (n * 1000000, rest)
        else inl errBad
      else inl errBad
  | _ => inl errBad
  end.

(** The chunk [Z0700]: either the letter Z for UTC, or a sign and four
    digits; the result is the offset in seconds east of UTC. *)
Definition zone (value : string) : ParseError + (Z * string) :=
  match value with
  | String "Z" rest => inr (0, rest)
  | String sg (String h1 (String h2 (String m1 (String m2 rest)))) =>
      match getnum (String h1 (String h2 EmptyString)) true with
      | inl e => inl e
      | inr (hr, _) =>
          match getnum (String m1 (String m2 EmptyString)) true with
          | inl e => if 24 <? hr then inl (errRange "time zone offset hour") else inl e
          | inr (mm, _) =>
              if 60 <? mm then inl (errRange "time zone offset minute")
              else if 24 <? hr then inl (errRange "time zone offset hour")
              else if Ascii.eqb sg "+"%char then inr ((hr * 60 + mm) * 60, rest)
              else if Ascii.eqb sg "-"%char then inr (- ((hr * 60 + mm) * 60), rest)
              else inl errBad
          end
      end
  | _ => inl errBad
  end.

Definition isLeap (year : Z) : bool :=
  (year mod 4 =? 0) && (negb (year mod 100 =? 0) || (year mod 400 =? 0)).

Definition daysIn (month year : Z) : Z :=
  if month =? 2 then (if isLeap year then 29 else 28)
  else if (month =? 4) || (month =? 6) || (month =? 9) || (month =? 11) then 30
  else 31.

(** [daysBefore[month-1]]: days of a non-leap year before the month. *)
Definition daysBefore (month : Z) : Z :=
  match month with
  | 1 => 0 | 2 => 31 | 3 => 59 | 4 => 90 | 5 => 120 | 6 => 151
  | 7 => 181 | 8 => 212 | 9 => 243 | 10 => 273 | 11 => 304 | _ => 334
  end.

(** Days from 1970-01-01 to the given day of the proleptic Gregorian
    calendar. *)
Definition daysSinceEpoch (year month day : Z) : Z :=
  let y := year - 1 in
  365 * y + y / 4 - y / 100 + y / 400 - 719162
  + daysBefore month
  + (if isLeap year && (3 <=? month) then 1 else 0)
  + (day - 1).

(** [time.Date(year, month, day, hour, min, sec, nsec, UTC)] shifted by
    the zone offset. *)
Definition Date (year month day hour min sec nsec offset : Z) : Time :=
  mkTime (daysSinceEpoch year month day * 86400
          + hour * 3600 + min * 60 + sec - offset) nsec.

Definition bind {A B : Type} (x : ParseError + A) (f : A -> ParseError + B)
  : ParseError + B :=
  match x with inl e => inl e | inr a => f a end.

Notation "'try' p <- x 'in' k" := (bind x (fun p => k))
  (at level 10, p pattern, x at level 100, k at level 200).

Definition check (ok : bool) (e : ParseError) : ParseError + unit :=
  if ok then inr tt else inl e.

(** [time.Parse("2006-01-02T15:04:05.000Z0700", value)]. *)
Definition Parse (value : string) : ParseError + Time :=
  try (year, v) <- longYear value in
  try v <- skip v "-" in
  try (month, v) <- getnum v true in
  try _ <- check ((0 <? month) && (month <=? 12)) (errRange "month") in
  try v <- skip v "-" in
  try (day, v) <- getnum v true in
  try v <- skip v "T" in
  try (hour, v) <- getnum v false in
  try _ <- check (hour <? 24) (errRange "hour") in
  try v <- skip v ":" in
  try (min, v) <- getnum v true in
  try _ <- check (min <? 60) (errRange "minute") in
  try v <- skip v ":" in
  try (sec, v) <- getnum v true in
  try _ <- check (sec <? 60) (errRange "second") in
  try (nsec, v) <- fracSecond v in
  try (offset, v) <- zone v in
  try _ <- check (String.eqb v EmptyString) (errExtraText v) in
  try _ <- check ((1 <=? day) && (day <=? daysIn month year)) errDayOutOfRange in
  inr (Date year month day hour min sec nsec offset).

End time.

(** ** Errors

    The error values the sink builds: [errors.New(msg)], a [*time.ParseError]
    and [fmt.Errorf(prefix + "%w", err)]. *)
Inductive error : Type :=
| errors_New (msg : string)
| time_ParseError (e : time.ParseError)
| fmt_Errorf_w (prefix : string) (err : error).

(** The two failures of the parser, under the names of the design document. *)
Definition MalformedRecord : error := errors_New "unknown log message format".

Definition InvalidTimestamp (e : time.ParseError) : error :=
  fmt_Errorf_w "invalid log timestamp: " (time_ParseError e).

(** ** Message *)

Record Message : Type := mkMessage {
  Date : Z;
  LogLevel : string;
  Location : string;
  Text : string;
  JSON : string
}.

(** [Message{}], the zero value. *)
Definition zeroMessage : Message := mkMessage 0 EmptyString EmptyString EmptyString EmptyString.

(** [parts[i]]; every use below is guarded by [4 <= len(parts)], or by
    [4 < len(parts)] for index 4, so the default is never taken. *)
Definition index (parts : list string) (i : nat) : string := nth i parts EmptyString.

Definition ConvertBytesToMessage (b : string) : Message * option error :=
  let parts := strings.Split (strings.TrimSpace b) tab in
  let pLen := Z.of_nat (length parts) in
  if (pLen <? 4) || (5 <? pLen) then (zeroMessage, Some MalformedRecord)
  else
    match time.Parse (index parts 0) with
    | inl err => (zeroMessage, Some (InvalidTimestamp err))
    | inr t =>
        let m := mkMessage (time.Unix t) (index parts 1) (index parts 2)
                           (index parts 3) EmptyString in
        let m := if 4 <? pLen
                 then mkMessage (Date m) (LogLevel m) (Location m) (Text m)
                                (index parts 4)
                 else m in
        (m, None)
    end.

(** Whether the byte [sep] occurs in [s]. *)
Fixpoint contains (s : string) (sep : ascii) : bool :=
  match s with
  | EmptyString => false
  | String c s' => Ascii.eqb c sep || contains s' sep
  end.

(** ** Channels

    A [chan Message] made by [make(chan Message, n)]: its capacity, the
    messages buffered and whether [close] was called on it.  [sent] is a
    history variable, not part of a Go channel: every message ever sent on
    the channel, in order, whether or not a consumer has received it yet. *)
Record chan : Type := mkChan {
  cap : nat;
  buf : list Message;
  closed : bool;
  sent : list Message
}.

Definition make_chan (n : nat) : chan := mkChan n [] false [].

(** How a call ends: it returns, it panics, or it blocks (on a full or nil
    channel, with no other goroutine of the model to wake it). *)
Inductive result (A : Type) : Type :=
| Ok (a : A)
| Panic (msg : string)
| Blocked.

Arguments Ok {A} a.
Arguments Panic {A} msg.
Arguments Blocked {A}.

Definition rbind {A B : Type} (x : result A) (f : A -> result B) : result B :=
  match x with
  | Ok a => f a
  | Panic msg => Panic msg
  | Blocked => Blocked
  end.

(** A channel value is a reference into the store of channels; a reference
    outside the store behaves as the nil channel. *)
Definition push (m : Message) (c : chan) : chan :=
  mkChan (cap c) (buf c ++ [m]) (closed c) (sent c ++ [m]).

(** [ch <- m] *)
Definition chan_send (h : list chan) (ch : nat) (m : Message) : result (list chan) :=
  match h !! ch with
  | None => Blocked
  | Some c =>
      if closed c then Panic "send on closed channel"
      else if (length (buf c) <? cap c)%nat then Ok (<[ch := push m c]> h)
      else Blocked
  end.

(** [close(ch)] *)
Definition chan_close (h : list chan) (ch : nat) : result (list chan) :=
  match h !! ch with
  | None => Panic "close of nil channel"
  | Some c =>
      if closed c then Panic "close of closed channel"
      else Ok (<[ch := mkChan (cap c) (buf c) true (sent c)]> h)
  end.

(** [m, ok := <-ch], what a consumer does with the handle it got. *)
Definition chan_recv (h : list chan) (ch : nat) : result (Message * bool * list chan) :=
  match h !! ch with
  | None => Blocked
  | Some c =>
      match buf c with
      | m :: rest => Ok (m, true, <[ch := mkChan (cap c) rest (closed c) (sent c)]> h)
      | [] => if closed c then Ok (zeroMessage, false, h) else Blocked
      end
  end.

(** ** The sink

    [mu] is not a field of the model.  [Listen], the closures it returns and
    [Close] hold [mu.Lock] for their whole body, so each of them is atomic
    with respect to every other call.  [Write] holds only [mu.RLock] while
    [send] runs: it excludes the former, but two [Write]s that overlap hold
    the read lock together and their sends can interleave.  The methods
    below, and the runs made of them, describe calls that do not overlap
    (each returns before the next starts, as with one producer); what two
    overlapping [Write]s do is described apart, by [overlapped]. *)
Record OctantSink : Type := mkSink {
  listeners : gmap string nat;
  converter : string -> Message * option error
}.

(** The sink together with the channels that exist. *)
Record State : Type := mkState {
  sink : OctantSink;
  chans : list chan
}.

Definition set_listeners (ls : gmap string nat) (s : State) : State :=
  mkState (mkSink ls (converter (sink s))) (chans s).

Definition set_chans (h : list chan) (s : State) : State :=
  mkState (sink s) h.

Definition OctantSinkOption : Type := OctantSink -> OctantSink.

Definition NewOctantSink (options : list OctantSinkOption) : OctantSink :=
  fold_left (fun o option => option o) options (mkSink ∅ ConvertBytesToMessage).

(** The loop of [send] over the channels of the map. *)
Fixpoint send_all (l : list (string * nat)) (m : Message) (h : list chan)
  : result (list chan) :=
  match l with
  | [] => Ok h
  | (_, ch) :: rest => rbind (chan_send h ch m) (send_all rest m)
  end.

(** The order in which Go ranges over a map is not specified; the model
    takes the order of [map_to_list]. *)
Definition send (m : Message) (s : State) : result State :=
  rbind (send_all (map_to_list (listeners (sink s))) m (chans s))
        (fun h => Ok (set_chans h s)).

Definition Write (p : string) (s : State) : result ((Z * option error) * State) :=
  match converter (sink s) p with
  | (_, Some err) => Ok ((0, Some (fmt_Errorf_w "convert bytes to message: " err)), s)
  | (m, None) => rbind (send m s) (fun s' => Ok ((len p, None), s'))
  end.

Definition Sync (s : State) : option error := None.

(** The loop of [Close]: close the channel, delete the key. *)
Fixpoint close_all (l : list (string * nat)) (ls : gmap string nat) (h : list chan)
  : result (gmap string nat * list chan) :=
  match l with
  | [] => Ok (ls, h)
  | (k, ch) :: rest => rbind (chan_close h ch) (close_all rest (delete k ls))
  end.

Definition Close (s : State) : result (option error * State) :=
  rbind (close_all (map_to_list (listeners (sink s))) (listeners (sink s)) (chans s))
        (fun '(ls, h) => Ok (None, set_chans h (set_listeners ls s))).

(** The closure [Listen] returns: it has captured [ch] and [id]. *)
Record ListenCancelFunc : Type := mkCancel { cf_ch : nat; cf_id : string }.

Definition cancel (f : ListenCancelFunc) (s : State) : result State :=
  rbind (chan_close (chans s) (cf_ch f))
        (fun h => Ok (set_listeners (delete (cf_id f) (listeners (sink s))) (set_chans h s))).

(** What [rand.String(6)] of k8s.io/apimachinery can return: six bytes of
    its alphabet, which has no vowels and no 0, 1 or 3. *)
Definition alphanums : string := "bcdfghjklmnpqrstvwxz2456789".

Fixpoint all_in (alphabet s : string) : bool :=
  match s with
  | EmptyString => true
  | String c s' => contains alphabet c && all_in alphabet s'
  end.

Definition rand_String_6 (id : string) : bool :=
  (String.length id =? 6)%nat && all_in alphanums id.

(** [Listen]; [id] is what [rand.String(6)] returned. *)
Definition Listen (id : string) (s : State) : (nat * ListenCancelFunc) * State :=
  let ch := length (chans s) in
  ((ch, mkCancel ch id),
   set_listeners (<[id := ch]> (listeners (sink s))) (set_chans (chans s ++ [make_chan 1000]) s)).

(** ** Runs

    A run is a sequence of calls on one sink by its clients: the producer
    writes, consumers listen, receive from the channel they got and call the
    closure they got.  The clients hold the closures [Listen] returned, in
    the order of the calls; a closure or channel is named by its position. *)
Inductive op : Type :=
| OpListen (id : string)
| OpCancel (k : nat)
| OpClose
| OpWrite (p : string)
| OpSync
| OpRecv (k : nat).

Definition Run : Type := State * list ListenCancelFunc.

Definition step (o : op) (r : Run) : result Run :=
  let (s, hs) := r in
  match o with
  | OpListen id => let '((_, f), s') := Listen id s in Ok (s', hs ++ [f])
  | OpCancel k =>
      match hs !! k with
      | Some f => rbind (cancel f s) (fun s' => Ok (s', hs))
      | None => Ok r
      end
  | OpClose => rbind (Close s) (fun '(_, s') => Ok (s', hs))
  | OpWrite p => rbind (Write p s) (fun '(_, s') => Ok (s', hs))
  | OpSync => Ok r
  | OpRecv k =>
      match hs !! k with
      | Some f => rbind (chan_recv (chans s) (cf_ch f)) (fun '(_, _, h) => Ok (set_chans h s, hs))
      | None => Ok r
      end
  end.

Fixpoint run (tr : list op) (r : Run) : result Run :=
  match tr with
  | [] => Ok r
  | o :: tr' => rbind (step o r) (run tr')
  end.

Definition start : Run := (mkState (NewOctantSink []) [], []).

Definition rec1 : string :=
  "2020-05-01T10:00:00.000Z" +:+ String tab "error" +:+ String tab "main.go:42"
  +:+ String tab "something failed".

(** The example record with a payload that holds a separator. *)
Definition rec_tab_payload : string :=
  rec1 +:+ String tab ("k:" +:+ String tab "v").

(** ** Vocabulary of the properties *)


Definition is_open (h : list chan) (ch : nat) : Prop :=
  closed <$> h !! ch = Some false.

Definition is_closed (h : list chan) (ch : nat) : Prop :=
  closed <$> h !! ch = Some true.

Definition has_room (h : list chan) (ch : nat) : Prop :=
  exists c, h !! ch = Some c /\ (length (buf c) < cap c)%nat.

(** A channel of the sink has capacity 1000 and never holds more. *)
Definition chan_ok (c : chan) : Prop :=
  cap c = 1000%nat /\ (length (buf c) <= cap c)%nat.

(** A call by a consumer that receives from its channel. *)
Definition is_recv (o : op) : Prop :=
  match o with
  | OpRecv _ => True
  | _ => False
  end.

(** The messages sent on a channel so far. *)
Definition sent_on (h : list chan) (ch : nat) : option (list Message) :=
  sent <$> h !! ch.

(** Every entry of the map refers to an open channel, and no channel is
    registered under two identities. *)
Definition registry_ok (s : State) : Prop :=
  (forall id ch, listeners (sink s) !! id = Some ch -> is_open (chans s) ch)
  /\ (forall id1 id2 ch,
        listeners (sink s) !! id1 = Some ch ->
        listeners (sink s) !! id2 = Some ch -> id1 = id2).

(** The invariant of a run, which also speaks of the closures handed out:
    every entry of the map is the pair some closure captured, and each
    closure has its own channel, which exists. *)
Definition run_ok (r : Run) : Prop :=
  converter (sink r.1) = ConvertBytesToMessage
  /\ (forall id ch, listeners (sink r.1) !! id = Some ch ->
                    mkCancel ch id ∈ r.2 /\ is_open (chans r.1) ch)
  /\ (forall f g, f ∈ r.2 -> g ∈ r.2 -> cf_ch f = cf_ch g -> f = g)
  /\ (forall f, f ∈ r.2 -> (cf_ch f < length (chans r.1))%nat).

(** The message a call hands to the broadcast, if any. *)
Definition delivered (o : op) : list Message :=
  match o with
  | OpWrite p =>
      match ConvertBytesToMessage p with
      | (m, None) => [m]
      | (_, Some _) => []
      end
  | _ => []
  end.

(** The messages a run ingests successfully, in the order of the calls. *)
Definition ingested (tr : list op) : list Message := flat_map delivered tr.

(** Whether the entry [id -> ch] is in the map. *)
Definition registered (id : string) (ch : nat) (r : Run) : bool :=
  bool_decide (listeners (sink r.1) !! id = Some ch).

(** Whether the entry [id -> ch] is in the map when each call of the run is
    made. *)
Fixpoint stays_registered (id : string) (ch : nat) (tr : list op) (r : Run) : bool :=
  match tr with
  | [] => true
  | o :: tr' =>
      registered id ch r
      && match step o r with
         | Ok r' => stays_registered id ch tr' r'
         | _ => true
         end
  end.

(** The state a run ends in; the new sink when it does not end. *)
Definition after (tr : list op) : Run :=
  match run tr start with
  | Ok r => r
  | _ => start
  end.

(** Two records that parse, and the messages they parse to. *)
Definition rec2 : string :=
  "2020-05-01T10:00:01.500+0200" +:+ String tab "info" +:+ String tab "sink.go:7"
  +:+ String tab "started" +:+ String tab "{}".

Definition msg1 : Message :=
  mkMessage 1588327200 "error" "main.go:42" "something failed" EmptyString.

Definition msg2 : Message :=
  mkMessage 1588320001 "info" "sink.go:7" "started" "{}".

(** The ordering guarantee read without a side condition: whatever is
    called after a subscriber's [Listen], its queue has received every
    message ingested since. *)
Definition queue_gets_every_later_message : Prop :=
  forall (tr0 : list op) (s0 : State) (hs0 : list ListenCancelFunc) (id : string)
         (tr : list op) (r2 : Run),
    run tr0 start = Ok (s0, hs0) ->
    run tr ((Listen id s0).2, hs0 ++ [(Listen id s0).1.2]) = Ok r2 ->
    sent_on (chans r2.1) (Listen id s0).1.1 = Some (ingested tr).

(** The second part of the registry invariant read without a side
    condition: whenever a call removes an entry from the map, the queue of
    the entry is closed. *)
Definition removal_closes_queue : Prop :=
  forall (tr : list op) (s : State) (hs : list ListenCancelFunc) (o : op)
         (s' : State) (hs' : list ListenCancelFunc) (id : string) (ch : nat),
    run tr start = Ok (s, hs) ->
    step o (s, hs) = Ok (s', hs') ->
    listeners (sink s) !! id = Some ch ->
    listeners (sink s') !! id <> Some ch ->
    is_closed (chans s') ch.

Ltac not_a_write := let p := fresh "p" in intros p; discriminate.

Ltac each_decodes :=
  repeat (first [apply List.Forall2_nil | apply List.Forall2_cons; [vm_compute; reflexivity|]]).

(** ** The parser read backwards *)

(** [strings.Join(parts, sep)] for a separator of one byte. *)
Fixpoint join (sep : ascii) (parts : list string) : string :=
  match parts with
  | [] => EmptyString
  | p :: rest =>
      match rest with
      | [] => p
      | _ :: _ => p +:+ String sep (join sep rest)
      end
  end.

(** The fields of a message in the order of the record; the payload is
    written only when there is one. *)
Definition fields_of (timestamp : string) (m : Message) : list string :=
  [timestamp; LogLevel m; Location m; Text m]
  ++ (if String.eqb (JSON m) EmptyString then [] else [JSON m]).

(** The range of [int64]. *)
Definition int64_min : Z := - 2 ^ 63.

Definition int64_max : Z := 2 ^ 63 - 1.

(** ** What the consumers receive *)

(** The message a call takes out of the queue [ch]: the one a consumer
    receives from it, if the call is that. *)
Definition recv_now (ch : nat) (o : op) (r : Run) : list Message :=
  match o with
  | OpRecv k =>
      match r.2 !! k with
      | Some f =>
          if Nat.eqb (cf_ch f) ch then
            match chan_recv (chans r.1) ch with
            | Ok (m, true, _) => [m]
            | _ => []
            end
          else []
      | None => []
      end
  | _ => []
  end.

(** The messages the consumers have received from the queue [ch] along a
    run, in the order of the calls. *)
Fixpoint received (ch : nat) (tr : list op) (r : Run) : list Message :=
  match tr with
  | [] => []
  | o :: tr' =>
      match step o r with
      | Ok r' => recv_now ch o r ++ received ch tr' r'
      | _ => []
      end
  end.

(** Whether a run from a new sink comes to an end, and whether a queue
    has room, as booleans that evaluate. *)
Definition returns (tr : list op) : bool :=
  match run tr start with
  | Ok _ => true
  | _ => false
  end.

Definition has_roomb (h : list chan) (ch : nat) : bool :=
  match h !! ch with
  | Some c => (length (buf c) <? cap c)%nat
  | None => false
  end.

(** ** View components ([pkg/view/component/component.go])

    The decoding of a content response and of the metadata of a component.
    [json.Unmarshal], the function [unmarshal] that builds a component from a
    typed object, and [NewText] are not in these sources: they are the
    operations of a [Backend], with the dynamic types behind the interfaces
    [Component] and [TitleComponent] and the two type assertions on them. *)
Module component.

(** The types behind [interface{}], [Component] and [TitleComponent], the
    values [json.Unmarshal] stores in a [map[string]interface{}], and the
    errors of [encoding/json]. *)
Class Types : Type := {
  Obj : Type;
  Component : Type;
  TitleComponent : Type;
  JValue : Type;
  json_error : Type
}.

(** The errors these functions return: one of [encoding/json], or one built
    by [fmt.Errorf], [errors.New], [errors.Errorf] or [errors.Wrap]. *)
Inductive error `{Types} : Type :=
| JsonError (e : json_error)
| fmt_Errorf (msg : string)
| errors_New (msg : string)
| errors_Errorf (msg : string)
| errors_Wrap (err : error) (msg : string).

Arguments JsonError {_} e.
Arguments fmt_Errorf {_} msg.
Arguments errors_New {_} msg.
Arguments errors_Errorf {_} msg.
Arguments errors_Wrap {_} err msg.

Record Metadata `{Types} : Type := mkMetadata {
  Type_ : string;
  Title : list TitleComponent;
  Accessor : string
}.

Arguments mkMetadata {_} _ _ _.

Record TypedObject `{Types} : Type := mkTypedObject {
  Config : string;
  Metadata_ : Metadata
}.

Arguments mkTypedObject {_} _ _.

Record ContentResponse `{Types} : Type := mkContentResponse {
  cr_Title : list TitleComponent;
  cr_Components : list Component
}.

Arguments mkContentResponse {_} _ _.

(** The anonymous structs [stage] and [x] the two [UnmarshalJSON] decode
    into. *)
Record ContentStage `{Types} : Type := mkContentStage {
  stage_Title : list TypedObject;
  stage_Components : list TypedObject
}.

Arguments mkContentStage {_} _ _.

Record MetadataStage `{Types} : Type := mkMetadataStage {
  x_Type : string;
  x_Title : list TypedObject
}.

Arguments mkMetadataStage {_} _ _.

Class Backend `{Types} : Type := {
  (** [NewText(s)] *)
  NewText : string -> TitleComponent;
  (** [unmarshal(to)] *)
  unmarshal : TypedObject -> error + Obj;
  (** [o.(Component)] and [vc.(TitleComponent)] *)
  asComponent : Obj -> option Component;
  asTitleComponent : Component -> option TitleComponent;
  (** what [%T] prints for [o] *)
  typeName : Obj -> string;
  (** [v.(string)] for a decoded JSON value *)
  asString : JValue -> option string;
  (** [json.Unmarshal] into a [map[string]interface{}], into [stage] and
      into [x] *)
  json_Unmarshal_map : string -> json_error + gmap string JValue;
  json_Unmarshal_stage : string -> json_error + ContentStage;
  json_Unmarshal_x : string -> json_error + MetadataStage
}.

Section Functions.

Context `{B : Backend}.

Definition NewContentResponse (title : list TitleComponent) : ContentResponse :=
  mkContentResponse title [].

(** [c.Add(components...)] *)
Definition Add (components : list Component) (c : ContentResponse) : ContentResponse :=
  mkContentResponse (cr_Title c) (cr_Components c ++ components).

Definition Title_ (components : list TitleComponent) : list TitleComponent :=
  components.

Definition TitleFromString (s : string) : list TitleComponent :=
  Title_ [NewText s].

(** [m.SetTitleText(parts...)] *)
Definition SetTitleText (parts : list string) (m : Metadata) : Metadata :=
  mkMetadata (Type_ m) (map NewText parts) (Accessor m).

Definition getTitleByUnmarshalInterface (config : string) : error + string :=
  match json_Unmarshal_map config with
  | inl err => inl (JsonError err)
  | inr objmap =>
      match objmap !! "value" ≫= asString with
      | Some value => inr value
      | None => inl (fmt_Errorf "title does not have a value")
      end
  end.

Definition ToComponent (to : TypedObject) : error + Component :=
  match unmarshal to with
  | inl err => inl err
  | inr o =>
      match asComponent o with
      | Some vc => inr vc
      | None =>
          inl (errors_Errorf ("unable to convert " +:+ typeName o +:+ " to Component"))
      end
  end.

(** The first loop of [ContentResponse.UnmarshalJSON]. *)
Fixpoint title_loop (ts : list TypedObject) (c : ContentResponse)
  : ContentResponse * option error :=
  match ts with
  | [] => (c, None)
  | t :: rest =>
      match getTitleByUnmarshalInterface (Config t) with
      | inl err => (c, Some err)
      | inr title =>
          title_loop rest (mkContentResponse (Title_ [NewText title]) (cr_Components c))
      end
  end.

(** Its second loop. *)
Fixpoint components_loop (tos : list TypedObject) (c : ContentResponse)
  : ContentResponse * option error :=
  match tos with
  | [] => (c, None)
  | to :: rest =>
      match ToComponent to with
      | inl err => (c, Some err)
      | inr vc =>
          components_loop rest (mkContentResponse (cr_Title c) (cr_Components c ++ [vc]))
      end
  end.

(** [c.UnmarshalJSON(data)]: the receiver after the call and the error. *)
Definition ContentResponse_UnmarshalJSON (data : string) (c : ContentResponse)
  : ContentResponse * option error :=
  match json_Unmarshal_stage data with
  | inl err => (c, Some (JsonError err))
  | inr stage =>
      match title_loop (stage_Title stage) c with
      | (c1, Some err) => (c1, Some err)
      | (c1, None) => components_loop (stage_Components stage) c1
      end
  end.

(** The loop of [Metadata.UnmarshalJSON]. *)
Fixpoint metadata_title_loop (ts : list TypedObject) (m : Metadata)
  : Metadata * option error :=
  match ts with
  | [] => (m, None)
  | title :: rest =>
      match ToComponent title with
      | inl err => (m, Some (errors_Wrap err "unmarshaling title"))
      | inr vc =>
          match asTitleComponent vc with
          | None =>
              (m, Some (errors_New "component in title isn't a title view component"))
          | Some tvc =>
              metadata_title_loop rest (mkMetadata (Type_ m) (Title m ++ [tvc]) (Accessor m))
          end
      end
  end.

(** [m.UnmarshalJSON(data)]: the receiver after the call and the error. *)
Definition Metadata_UnmarshalJSON (data : string) (m : Metadata)
  : Metadata * option error :=
  match json_Unmarshal_x data with
  | inl err => (m, Some (JsonError err))
  | inr x =>
      metadata_title_loop (x_Title x) (mkMetadata (x_Type x) (Title m) (Accessor m))
  end.

(** The title the first loop of [ContentResponse.UnmarshalJSON] leaves after
    the titles [vs]: a text of the last one, or the title there was when
    there is none. *)
Definition last_title (vs : list string) (old : list TitleComponent)
  : list TitleComponent :=
  match last vs with
  | Some v => [NewText v]
  | None => old
  end.

(** A typed object becomes the title component [tvc]. *)
Definition title_of (to : TypedObject) (tvc : TitleComponent) : Prop :=
  exists vc, ToComponent to = inr vc /\ asTitleComponent vc = Some tvc.

End Functions.

(** A small backend to run the functions on: objects, components and title
    components are strings, a component is a title component when it starts
    with the letter t, a typed object is unmarshalled to its config unless
    that is empty, and the three decoders read fixed documents. *)
Definition toy_types : Types :=
  {| Obj := string; Component := string; TitleComponent := string;
     JValue := string; json_error := string |}.

Definition toy_object (config : string) : @TypedObject toy_types :=
  @mkTypedObject toy_types config (@mkMetadata toy_types "text" [] EmptyString).

Definition toy_backend : @Backend toy_types :=
  @Build_Backend toy_types
    (* NewText *)
    (fun s : string => "t:" +:+ s)
    (* unmarshal *)
    (fun to : @TypedObject toy_types =>
       if String.eqb (@Config toy_types to) EmptyString
       then inl (@errors_New toy_types "no config")
       else inr (@Config toy_types to))
    (* asComponent *)
    (fun o : string => if String.eqb o "?" then None else Some o)
    (* asTitleComponent *)
    (fun vc : string =>
       match vc with
       | String "t" _ => Some vc
       | _ => None
       end)
    (* typeName *)
    (fun _ : string => "string")
    (* asString *)
    (fun v : string => Some v)
    (* json_Unmarshal_map *)
    (fun config : string =>
       if String.eqb config "{}" then inr ∅
       else if String.eqb config "bad" then inl "unexpected end of JSON input"
       else inr {[ "value" := config ]})
    (* json_Unmarshal_stage *)
    (fun data : string =>
       if String.eqb data "doc"
       then inr (@mkContentStage toy_types [toy_object "first"; toy_object "second"]
                                 [toy_object "table"; toy_object "text"])
       else if String.eqb data "doc2"
       then inr (@mkContentStage toy_types [toy_object "first"; toy_object "{}"]
                                 [toy_object "table"])
       else if String.eqb data "doc3"
       then inr (@mkContentStage toy_types [toy_object "first"]
                                 [toy_object "table"; toy_object "?"; toy_object "text"])
       else inl "unexpected end of JSON input")
    (* json_Unmarshal_x *)
    (fun data : string =>
       if String.eqb data "meta"
       then inr (@mkMetadataStage toy_types "table" [toy_object "t1"; toy_object "t2"])
       else if String.eqb data "meta2"
       then inr (@mkMetadataStage toy_types "table" [toy_object "t1"; toy_object "x"])
       else inl "unexpected end of JSON input").

End component.

(** ** The timestamp format in the words of the design document

    "ISO-8601 with millisecond precision and explicit UTC offset": four
    digits, a dash, two digits, a dash, two digits, the letter T, two digits,
    a colon, two digits, a colon, two digits, a period, three digits, and then
    the letter Z or a sign and an offset of hours and minutes (two and two
    digits, with or without a colon between them).  This is the format the
    document names, not what [time.Parse] reads. *)
Fixpoint eat_digits (n : nat) (s : string) : option string :=
  match n with
  | O => Some s
  | S n' =>
      match s with
      | String c rest => if time.isDigitB c then eat_digits n' rest else None
      | EmptyString => None
      end
  end.

Definition eat (c : ascii) (s : string) : option string :=
  match s with
  | String a rest => if Ascii.eqb a c then Some rest else None
  | EmptyString => None
  end.

(** A format as a sequence of pieces: so many digits, or a given letter. *)
Inductive piece : Type :=
| Digits (n : nat)
| Lit (c : ascii).

(** What is left of [s] after the pieces, if [s] starts with them. *)
Fixpoint eat_all (ps : list piece) (s : string) : option string :=
  match ps with
  | [] => Some s
  | Digits n :: ps' =>
      match eat_digits n s with
      | Some rest => eat_all ps' rest
      | None => None
      end
  | Lit c :: ps' =>
      match eat c s with
      | Some rest => eat_all ps' rest
      | None => None
      end
  end.

Definition is_exactly (ps : list piece) (s : string) : bool :=
  match eat_all ps s with
  | Some EmptyString => true
  | _ => false
  end.

Definition is_utc_offset (zone : string) : bool :=
  String.eqb zone "Z"
  || match zone with
     | String sg rest =>
         (Ascii.eqb sg "+" || Ascii.eqb sg "-")
         && (is_exactly [Digits 4] rest
             || is_exactly [Digits 2; Lit ":"; Digits 2] rest)
     | EmptyString => false
     end.

Definition iso8601_millis_offset (s : string) : bool :=
  match eat_all [Digits 4; Lit "-"; Digits 2; Lit "-"; Digits 2; Lit "T";
                 Digits 2; Lit ":"; Digits 2; Lit ":"; Digits 2; Lit ".";
                 Digits 3] s with
  | Some zone => is_utc_offset zone
  | None => false
  end.

(** The rejection of timestamps read with that format: a record of 4 or 5
    fields whose first field is not in the format makes [Write] return the
    "invalid log timestamp" error and leave every queue as it was. *)
Definition strict_timestamp_enforced : Prop :=
  forall (p : string) (s : State),
    converter (sink s) = ConvertBytesToMessage ->
    (length (strings.Split (strings.TrimSpace p) tab) = 4
     \/ length (strings.Split (strings.TrimSpace p) tab) = 5)%nat ->
    iso8601_millis_offset (index (strings.Split (strings.TrimSpace p) tab) 0) = false ->
    exists e,
      Write p s
      = Ok ((0, Some (fmt_Errorf_w "convert bytes to message: " (InvalidTimestamp e))), s).

(** Two records whose timestamps are not in that format: an hour of one
    digit; and a comma, a sign in the fraction and an offset of 24 hours and
    60 minutes. *)
Definition rec_short_hour : string :=
  "2020-05-01T1:00:00.000Z" +:+ String tab "error" +:+ String tab "main.go:42"
  +:+ String tab "something failed".

Definition rec_loose_time : string :=
  "2020-05-01T1:00:00,+12-2460" +:+ String tab "error" +:+ String tab "main.go:42"
  +:+ String tab "something failed".

(** ** Two [Write]s that overlap

    Each [send] loop sends its message once on the channel of every entry of
    the map, in the order in which Go happens to range over the map; two
    loops that run together under the read lock take their steps in any
    interleaving. *)
Definition sends_of (m : Message) (ls : gmap string nat) : list (nat * Message) :=
  (fun kc : string * nat => (kc.2, m)) <$> map_to_list ls.

Fixpoint do_sends (l : list (nat * Message)) (h : list chan) : result (list chan) :=
  match l with
  | [] => Ok h
  | (ch, m) :: rest => rbind (chan_send h ch m) (do_sends rest)
  end.

Inductive interleaving {A : Type} : list A -> list A -> list A -> Prop :=
| interleaving_nil : interleaving [] [] []
| interleaving_left (x : A) (l1 l2 l : list A) :
    interleaving l1 l2 l -> interleaving (x :: l1) l2 (x :: l)
| interleaving_right (x : A) (l1 l2 l : list A) :
    interleaving l1 l2 l -> interleaving l1 (x :: l2) (x :: l).

(** [l] is a way in which the sends of [Write]s of [m1] and of [m2] that
    overlap can follow each other. *)
Definition overlapped (m1 m2 : Message) (s : State) (l : list (nat * Message)) : Prop :=
  exists l1 l2,
    l1 ≡ₚ sends_of m1 (listeners (sink s))
    /\ l2 ≡ₚ sends_of m2 (listeners (sink s))
    /\ interleaving l1 l2 l.

(** The messages [l] sends on the channel [ch], in order. *)
Definition msgs_for (ch : nat) (l : list (nat * Message)) : list Message :=
  snd <$> filter (fun x : nat * Message => x.1 = ch) l.

(** Every registered queue has room for two more messages. *)
Definition room_for_two (s : State) : bool :=
  forallb (fun kc : string * nat =>
             match chans s !! kc.2 with
             | Some c => (S (length (buf c)) <? cap c)%nat
             | None => false
             end)
          (map_to_list (listeners (sink s))).

(** * The library models on small inputs *)

Example Split_empty : strings.Split EmptyString tab = [EmptyString].
Proof. reflexivity. Qed.

Example Split_trailing_separator :
  strings.Split ("a" +:+ String tab ("b" +:+ String tab EmptyString)) tab
  = ["a"; "b"; EmptyString].
Proof. reflexivity. Qed.

Example TrimSpace_ascii :
  strings.TrimSpace (String tab " a b " +:+ String "010" EmptyString) = "a b".
Proof. reflexivity. Qed.

(** U+00A0 before and U+2003 after the letter. *)
Example TrimSpace_unicode :
  strings.TrimSpace
    (String (ascii_of_nat 194) (String (ascii_of_nat 160)
       (String "a" (String (ascii_of_nat 226) (String (ascii_of_nat 128)
          (String (ascii_of_nat 131) EmptyString))))))
  = "a".
Proof. vm_compute. reflexivity. Qed.

Example Parse_epoch :
  time.Parse "1970-01-01T00:00:00.000Z" = inr (time.mkTime 0 0).
Proof. vm_compute. reflexivity. Qed.

Example Parse_offset :
  time.Parse "1970-01-01T01:00:00.250+0100" = inr (time.mkTime 0 250000000).
Proof. vm_compute. reflexivity. Qed.

Example Parse_leap_day :
  time.Parse "2020-02-29T23:59:59.999-0000" = inr (time.mkTime 1583020799 999000000)
  /\ time.Parse "2021-02-29T23:59:59.999Z" = inl time.errDayOutOfRange.
Proof. split; vm_compute; reflexivity. Qed.

Example Parse_refused :
  time.Parse "2020-05-01T10:00:00Z" = inl time.errBad
  /\ time.Parse "2020-05-01T10:00:00.000" = inl time.errBad
  /\ time.Parse "2020-13-01T10:00:00.000Z" = inl (time.errRange "month")
  /\ time.Parse "2020-05-01T10:00:00.000Z " = inl (time.errExtraText " ").
Proof. repeat split; vm_compute; reflexivity. Qed.

Example Convert_rec2 : ConvertBytesToMessage rec2 = (msg2, None).
Proof. vm_compute. reflexivity. Qed.

(** * Properties of the parser *)

Section SplitFacts.

Variable sep : ascii.

Lemma Split_not_nil (s : string) : strings.Split s sep <> [].
Proof.
  induction s as [|c s IH]; simpl; [discriminate|].
  destruct (Ascii.eqb c sep); [discriminate|].
  destruct (strings.Split s sep); discriminate.
Qed.

Lemma Split_field (f rest : string) :
  contains f sep = false ->
  strings.Split (f +:+ String sep rest) sep = f :: strings.Split rest sep.
Proof.
  induction f as [|c f IH]; simpl; intros Hc.
  - now rewrite Ascii.eqb_refl.
  - apply orb_false_iff in Hc as [Hc Hf].
    rewrite Hc, (IH Hf). reflexivity.
Qed.

Lemma Split_last (f : string) :
  contains f sep = false -> strings.Split f sep = [f].
Proof.
  induction f as [|c f IH]; simpl; intros Hc; [reflexivity|].
  apply orb_false_iff in Hc as [Hc Hf].
  rewrite Hc, (IH Hf). reflexivity.
Qed.

Lemma Split_more (s : string) :
  contains s sep = true -> (2 <= length (strings.Split s sep))%nat.
Proof.
  induction s as [|c s IH]; simpl; [discriminate|].
  destruct (Ascii.eqb c sep); simpl; intros Hc.
  - pose proof (Split_not_nil s).
    destruct (strings.Split s sep); [congruence | simpl; lia].
  - specialize (IH Hc).
    destruct (strings.Split s sep); simpl in *; lia.
Qed.

End SplitFacts.

(** The parser rejects a record by its number of fields alone. *)
Lemma Convert_malformed (b : string) :
  let n := length (strings.Split (strings.TrimSpace b) tab) in
  (n < 4 \/ 5 < n)%nat ->
  ConvertBytesToMessage b = (zeroMessage, Some MalformedRecord).
Proof.
  intros n Hn. unfold ConvertBytesToMessage. fold n.
  replace ((Z.of_nat n <? 4) || (5 <? Z.of_nat n)) with true; [reflexivity|].
  symmetry. apply orb_true_iff.
  destruct Hn; [left; apply Z.ltb_lt | right; apply Z.ltb_lt]; lia.
Qed.


(** A failing conversion makes [Write] return 0 and the wrapped error, and
    leaves the sink and every channel as they were. *)
Lemma Write_convert_error (p : string) (s : State) (m : Message) (e : error) :
  converter (sink s) p = (m, Some e) ->
  Write p s = Ok ((0, Some (fmt_Errorf_w "convert bytes to message: " e)), s).
Proof. intros H. unfold Write. now rewrite H. Qed.

(** C1: a record that does not split into 4 or 5 fields makes [Write] return
    0 bytes and the "unknown log message format" error (wrapped by [Write]),
    and the state, with every subscriber's queue, is unchanged. *)
Theorem C1_malformed_record_rejected (p : string) (s : State) :
  converter (sink s) = ConvertBytesToMessage ->
  (length (strings.Split (strings.TrimSpace p) tab) < 4
   \/ 5 < length (strings.Split (strings.TrimSpace p) tab))%nat ->
  ConvertBytesToMessage p = (zeroMessage, Some MalformedRecord)
  /\ Write p s
     = Ok ((0, Some (fmt_Errorf_w "convert bytes to message: " MalformedRecord)), s).
Proof.
  intros Hc Hn. pose proof (Convert_malformed p Hn) as H.
  split; [exact H|].
  apply (Write_convert_error p s zeroMessage). now rewrite Hc.
Qed.

Lemma C1_malformed_record_rejected_witness :
  ConvertBytesToMessage "garbage" = (zeroMessage, Some MalformedRecord)
  /\ Write "garbage" (fst start)
     = Ok ((0, Some (fmt_Errorf_w "convert bytes to message: " MalformedRecord)),
           fst start).
Proof.
  apply (C1_malformed_record_rejected "garbage" (fst start)).
  - reflexivity.
  - vm_compute. lia.
Defined.



(** C3 as worded fails: [time.Parse] accepts timestamps that are not in the
    format the design document names, here an hour of one digit, and a comma
    with a signed fraction and an offset of 24 hours and 60 minutes; the
    records are parsed and broadcast to the subscriber. *)
Lemma C3_counterexample :
  iso8601_millis_offset "2020-05-01T10:00:00.000Z" = true
  /\ iso8601_millis_offset "2020-05-01T1:00:00.000Z" = false
  /\ iso8601_millis_offset "2020-05-01T1:00:00,+12-2460" = false
  /\ ConvertBytesToMessage rec_short_hour
     = (mkMessage 1588294800 "error" "main.go:42" "something failed" EmptyString, None)
  /\ ConvertBytesToMessage rec_loose_time
     = (mkMessage 1588384800 "error" "main.go:42" "something failed" EmptyString, None)
  /\ Write rec_short_hour (after [OpListen "bcdfgh"]).1
     = Ok ((len rec_short_hour, None), (after [OpListen "bcdfgh"; OpWrite rec_short_hour]).1)
  /\ sent_on (chans (after [OpListen "bcdfgh"; OpWrite rec_short_hour]).1) 0
     = Some [mkMessage 1588294800 "error" "main.go:42" "something failed" EmptyString]
  /\ ~ strict_timestamp_enforced.
Proof.
  split; [vm_compute; reflexivity|]. split; [vm_compute; reflexivity|].
  split; [vm_compute; reflexivity|]. split; [vm_compute; reflexivity|].
  split; [vm_compute; reflexivity|]. split; [reflexivity|].
  split; [vm_compute; reflexivity|].
  intros Hstated.
  destruct (Hstated rec_short_hour start.1) as [e He].
  - reflexivity.
  - left. vm_compute. reflexivity.
  - vm_compute. reflexivity.
  - assert (Hw : Write rec_short_hour start.1 = Ok ((len rec_short_hour, None), start.1))
      by reflexivity.
    rewrite Hw in He. discriminate He.
Qed.

(** C4: the example record of four fields parses to the message with the
    Unix seconds of 2020-05-01T10:00:00Z, which is 1588327200, the three text
    fields, and an empty payload. *)
Theorem C4_example_record :
  ConvertBytesToMessage rec1
  = (mkMessage (time.Unix (time.Date 2020 5 1 10 0 0 0 0))
               "error" "main.go:42" "something failed" EmptyString, None)
  /\ time.Unix (time.Date 2020 5 1 10 0 0 0 0) = 1588327200.
Proof. split; vm_compute; reflexivity. Qed.

(** C10: a record of exactly 4 fields that parses has the empty string as
    its [JSON]; and whenever the parser returns an error, the message it
    returns with it is [Message{}]. *)
Theorem C10_payload_absent_and_zero_on_error (b : string) :
  (length (strings.Split (strings.TrimSpace b) tab) = 4%nat ->
   snd (ConvertBytesToMessage b) = None ->
   JSON (fst (ConvertBytesToMessage b)) = EmptyString)
  /\ (snd (ConvertBytesToMessage b) <> None ->
      fst (ConvertBytesToMessage b) = zeroMessage).
Proof.
  unfold ConvertBytesToMessage.
  set (parts := strings.Split (strings.TrimSpace b) tab).
  split.
  - intros Hn. rewrite Hn. simpl.
    destruct (time.Parse (index parts 0)); simpl; [discriminate | reflexivity].
  - destruct ((Z.of_nat (length parts) <? 4) || (5 <? Z.of_nat (length parts)));
      [reflexivity|].
    destruct (time.Parse (index parts 0)); simpl; [reflexivity | congruence].
Qed.

Lemma C10_payload_absent_and_zero_on_error_witness :
  JSON (fst (ConvertBytesToMessage rec1)) = EmptyString
  /\ fst (ConvertBytesToMessage "garbage") = zeroMessage.
Proof.
  split.
  - apply (C10_payload_absent_and_zero_on_error rec1); vm_compute; reflexivity.
  - apply (C10_payload_absent_and_zero_on_error "garbage"). vm_compute. discriminate.
Defined.

(** C2 as worded fails: the payload of [rec_tab_payload], everything after
    its 4th separator, holds a separator; the record is refused, so nothing
    is carried through. *)
Lemma C2_counterexample :
  rec_tab_payload = rec1 +:+ String tab ("k:" +:+ String tab "v")
  /\ contains rec1 tab = true
  /\ strings.Split rec1 tab
     = ["2020-05-01T10:00:00.000Z"; "error"; "main.go:42"; "something failed"]
  /\ ConvertBytesToMessage rec_tab_payload = (zeroMessage, Some MalformedRecord)
  /\ snd (ConvertBytesToMessage rec_tab_payload) <> None
  /\ JSON (fst (ConvertBytesToMessage rec_tab_payload)) <> "k:" +:+ String tab "v".
Proof. vm_compute. repeat split; discriminate. Qed.

(** C2 (amended): the record is split at every separator.  When the trimmed
    record is four separator-free fields, a separator and a payload, a
    payload that holds a separator makes the record one of more than 5 fields,
    refused as malformed; a payload without one is the 5th field and is
    carried through verbatim as [JSON]. *)
Theorem C2_payload_split_at_every_separator (b f0 f1 f2 f3 payload : string) :
  strings.TrimSpace b
  = f0 +:+ String tab (f1 +:+ String tab (f2 +:+ String tab (f3 +:+ String tab payload))) ->
  contains f0 tab = false -> contains f1 tab = false ->
  contains f2 tab = false -> contains f3 tab = false ->
  (contains payload tab = true ->
   ConvertBytesToMessage b = (zeroMessage, Some MalformedRecord))
  /\ (contains payload tab = false ->
      forall t : time.Time, time.Parse f0 = inr t ->
      ConvertBytesToMessage b = (mkMessage (time.Unix t) f1 f2 f3 payload, None)).
Proof.
  intros Hb H0 H1 H2 H3.
  assert (Hparts : strings.Split (strings.TrimSpace b) tab
                   = f0 :: f1 :: f2 :: f3 :: strings.Split payload tab).
  { rewrite Hb. now rewrite !Split_field. }
  split.
  - intros Hp. apply Convert_malformed. rewrite Hparts.
    pose proof (Split_more tab payload Hp). simpl. right. lia.
  - intros Hp t Ht. unfold ConvertBytesToMessage.
    rewrite Hparts, (Split_last tab payload Hp). simpl.
    unfold index at 1. simpl. rewrite Ht. reflexivity.
Qed.

Lemma C2_payload_split_at_every_separator_witness :
  ConvertBytesToMessage rec_tab_payload = (zeroMessage, Some MalformedRecord)
  /\ ConvertBytesToMessage (rec1 +:+ String tab "k:v")
     = (mkMessage 1588327200 "error" "main.go:42" "something failed" "k:v", None).
Proof.
  split.
  - apply (C2_payload_split_at_every_separator rec_tab_payload
             "2020-05-01T10:00:00.000Z" "error" "main.go:42" "something failed"
             ("k:" +:+ String tab "v")); vm_compute; reflexivity.
  - refine (proj2 (C2_payload_split_at_every_separator (rec1 +:+ String tab "k:v")
             "2020-05-01T10:00:00.000Z" "error" "main.go:42" "something failed"
             "k:v" _ _ _ _ _) _ (time.mkTime 1588327200 0) _);
      vm_compute; reflexivity.
Defined.

(** * Properties of the registry *)

Section ChanFacts.

Implicit Types (h : list chan) (ch : nat) (c : chan) (m : Message).

Lemma update_lookup h ch c c' ch' :
  h !! ch = Some c ->
  <[ch := c']> h !! ch' = if decide (ch' = ch) then Some c' else h !! ch'.
Proof.
  intros Hc. apply lookup_lt_Some in Hc as Hlt.
  destruct (decide (ch' = ch)) as [->|Hne].
  - now apply list_lookup_insert_eq.
  - apply list_lookup_insert_ne. congruence.
Qed.

Lemma update_same_field {A : Type} (pi : chan -> A) h ch c c' ch' :
  h !! ch = Some c -> pi c' = pi c ->
  pi <$> <[ch := c']> h !! ch' = pi <$> h !! ch'.
Proof.
  intros Hc Hpi. rewrite (update_lookup h ch c c' ch' Hc).
  destruct (decide (ch' = ch)) as [->|]; [|reflexivity].
  rewrite Hc. simpl. now rewrite Hpi.
Qed.

Lemma chan_send_Ok h ch m h' :
  chan_send h ch m = Ok h' ->
  exists c, h !! ch = Some c /\ closed c = false
            /\ (length (buf c) < cap c)%nat /\ h' = <[ch := push m c]> h.
Proof.
  unfold chan_send. destruct (h !! ch) as [c|]; [|discriminate].
  destruct (closed c) eqn:Hcl; [discriminate|].
  destruct (length (buf c) <? cap c)%nat eqn:Hroom; [|discriminate].
  intros [= <-]. exists c. apply Nat.ltb_lt in Hroom. auto.
Qed.

Lemma chan_close_Ok h ch h' :
  chan_close h ch = Ok h' ->
  exists c, h !! ch = Some c /\ closed c = false
            /\ h' = <[ch := mkChan (cap c) (buf c) true (sent c)]> h.
Proof.
  unfold chan_close. destruct (h !! ch) as [c|]; [|discriminate].
  destruct (closed c) eqn:Hcl; [discriminate|].
  intros [= <-]. exists c. auto.
Qed.

Lemma chan_close_open h ch :
  is_open h ch -> exists h', chan_close h ch = Ok h'.
Proof.
  unfold is_open, chan_close. destruct (h !! ch) as [c|]; simpl; [|discriminate].
  intros [= ->]. eauto.
Qed.

Lemma chan_close_closed h ch :
  is_closed h ch -> chan_close h ch = Panic "close of closed channel".
Proof.
  unfold is_closed, chan_close. destruct (h !! ch) as [c|]; simpl; [|discriminate].
  now intros [= ->].
Qed.

(** What a successful [close] leaves: the channel closed, every other
    channel and the contents of all of them as they were. *)
Lemma chan_close_effect h ch h' :
  chan_close h ch = Ok h' ->
  length h' = length h /\ is_open h ch /\ is_closed h' ch
  /\ (forall ch', ch' <> ch -> h' !! ch' = h !! ch')
  /\ (forall ch', sent_on h' ch' = sent_on h ch')
  /\ (forall ch', buf <$> h' !! ch' = buf <$> h !! ch').
Proof.
  intros (c & Hc & Hcl & ->)%chan_close_Ok.
  split; [apply length_insert|].
  split; [unfold is_open; now rewrite Hc; simpl; rewrite Hcl|].
  split.
  { unfold is_closed. rewrite (update_lookup _ _ _ _ _ Hc).
    now rewrite decide_True. }
  split.
  { intros ch' Hne. rewrite (update_lookup _ _ _ _ _ Hc).
    now rewrite decide_False. }
  split; intros ch'; unfold sent_on;
    now apply (update_same_field _ _ _ c).
Qed.

Lemma chan_recv_effect h ch x h' :
  chan_recv h ch = Ok (x, h') ->
  length h' = length h
  /\ (forall ch', closed <$> h' !! ch' = closed <$> h !! ch')
  /\ (forall ch', sent_on h' ch' = sent_on h ch').
Proof.
  unfold chan_recv. destruct (h !! ch) as [c|] eqn:Hc; [|discriminate].
  destruct (buf c) as [|m rest].
  - destruct (closed c); [|discriminate]. intros [= _ <-]. auto.
  - intros [= _ <-].
    split; [apply length_insert|].
    split; intros ch'; unfold sent_on; now apply (update_same_field _ _ _ c).
Qed.

End ChanFacts.

Section LoopFacts.

Implicit Types (l : list (string * nat)) (h : list chan) (m : Message).

(** The broadcast loop never sends on a closed channel when the channels
    it ranges over are open. *)
Lemma send_all_no_panic l m h msg :
  (forall ch, ch ∈ l.*2 -> is_open h ch) -> send_all l m h <> Panic msg.
Proof.
  revert h. induction l as [|[k a] l IH]; intros h Hopen; cbn [send_all]; rewrite ?fmap_cons in *; cbn [fst snd] in *; [discriminate|].
  pose proof (Hopen a (list_elem_of_here _ _)) as Ha.
  unfold is_open in Ha. unfold chan_send.
  destruct (h !! a) as [c|] eqn:Hc; simpl in *; [|discriminate].
  injection Ha as ->.
  destruct (length (buf c) <? cap c)%nat; simpl; [|discriminate].
  apply IH. intros ch Hch. unfold is_open.
  rewrite (update_same_field closed h a c); [|assumption|reflexivity].
  apply Hopen. now apply list_elem_of_further.
Qed.

(** A broadcast that returns has appended the message to every channel of
    the loop, once, and to no other. *)
Lemma send_all_Ok l m h h' :
  send_all l m h = Ok h' -> NoDup (l.*2) ->
  length h' = length h
  /\ forall ch, h' !! ch = if decide (ch ∈ l.*2) then push m <$> h !! ch else h !! ch.
Proof.
  revert h. induction l as [|[k a] l IH]; intros h; cbn [send_all close_all]; rewrite ?fmap_cons; cbn [fst snd].
  - intros [= <-] _. split; [reflexivity|]. intros ch.
    rewrite decide_False; [reflexivity | apply not_elem_of_nil].
  - intros Hrun [Hnotin Hnd]%NoDup_cons.
    destruct (chan_send h a m) as [h1| |] eqn:Hs; simpl in Hrun; try discriminate.
    apply chan_send_Ok in Hs as (c & Hc & _ & _ & ->).
    destruct (IH _ Hrun Hnd) as [Hlen Hlook].
    split; [now rewrite Hlen, length_insert|].
    intros ch. rewrite Hlook, (update_lookup h a c _ ch Hc).
    destruct (decide (ch = a)) as [->|Hne].
    + rewrite decide_False by assumption.
      rewrite decide_True by apply list_elem_of_here.
      now rewrite Hc.
    + destruct (decide (ch ∈ l.*2)) as [Hin|Hout].
      * rewrite decide_True; [reflexivity | now apply list_elem_of_further].
      * rewrite decide_False; [reflexivity|].
        intros [?|?]%elem_of_cons; contradiction.
Qed.

Lemma send_all_room l m h :
  NoDup (l.*2) ->
  (forall ch, ch ∈ l.*2 -> is_open h ch /\ has_room h ch) ->
  exists h', send_all l m h = Ok h'.
Proof.
  revert h. induction l as [|[k a] l IH]; intros h; cbn [send_all close_all]; rewrite ?fmap_cons; cbn [fst snd]; [eauto|].
  intros [Hnotin Hnd]%NoDup_cons Hall.
  destruct (Hall a (list_elem_of_here _ _)) as [Hopen (c & Hc & Hroom)].
  unfold is_open in Hopen. rewrite Hc in Hopen. simpl in Hopen.
  injection Hopen as Hopen.
  unfold chan_send. rewrite Hc, Hopen.
  apply Nat.ltb_lt in Hroom. rewrite Hroom. simpl.
  apply IH; [assumption|].
  intros ch Hch. assert (ch <> a) as Hne by (intros ->; contradiction).
  destruct (Hall ch (list_elem_of_further _ _ _ Hch)) as [Ho (c' & Hc' & Hr')].
  unfold is_open, has_room.
  rewrite (update_lookup h a c _ ch Hc), decide_False by assumption.
  split; [exact Ho | eauto].
Qed.

(** What a shutdown loop that returns has done. *)
Lemma close_all_Ok l (ls ls' : gmap string nat) h h' :
  close_all l ls h = Ok (ls', h') ->
  length h' = length h
  /\ (forall k, ls' !! k = if decide (k ∈ l.*1) then None else ls !! k)
  /\ (forall ch, ch ∈ l.*2 -> is_open h ch /\ is_closed h' ch)
  /\ (forall ch, ch ∉ l.*2 -> h' !! ch = h !! ch)
  /\ (forall ch, sent_on h' ch = sent_on h ch).
Proof.
  revert ls h. induction l as [|[k a] l IH]; intros ls h;
    cbn [send_all close_all]; rewrite ?fmap_cons; cbn [fst snd].
  - intros [= <- <-]. split; [reflexivity|]. split; [|split; [|split]].
    + intros k. rewrite decide_False; [reflexivity | apply not_elem_of_nil].
    + intros ch Hin. now apply elem_of_nil in Hin.
    + reflexivity.
    + reflexivity.
  - intros Hrun.
    destruct (chan_close h a) as [h1| |] eqn:Hcl; simpl in Hrun; try discriminate.
    apply chan_close_effect in Hcl as (Hlen1 & Hopen & Hclosed & Hother & Hsent & _).
    destruct (IH _ _ Hrun) as (Hlen & Hmap & Hchs & Hrest & Hsent').
    assert (Hnotin : a ∉ l.*2).
    { intros Hin. destruct (Hchs a Hin) as [Ho _].
      unfold is_open in Ho. unfold is_closed in Hclosed. congruence. }
    split; [congruence|]. split; [|split; [|split]].
    + intros k'. rewrite Hmap, lookup_delete.
      destruct (decide (k' ∈ l.*1)) as [Hin|Hout].
      * rewrite decide_True; [reflexivity | now apply list_elem_of_further].
      * destruct (decide (k = k')) as [->|Hne].
        -- rewrite decide_True; [reflexivity | apply list_elem_of_here].
        -- rewrite decide_False; [reflexivity|].
           intros [?|?]%elem_of_cons; [congruence | contradiction].
    + intros ch [->|Hin]%elem_of_cons.
      * split; [assumption|]. unfold is_closed. now rewrite (Hrest a Hnotin).
      * destruct (Hchs ch Hin) as [Ho Hc]. split; [|assumption].
        assert (ch <> a) by (intros ->; contradiction).
        unfold is_open in *. now rewrite <- (Hother ch).
    + intros ch Hout. rewrite Hrest, Hother; [reflexivity| |].
      * intros ->. apply Hout, list_elem_of_here.
      * intros Hin. apply Hout. now apply list_elem_of_further.
    + intros ch. now rewrite Hsent', Hsent.
Qed.

Lemma close_all_total l (ls : gmap string nat) h :
  NoDup (l.*2) -> (forall ch, ch ∈ l.*2 -> is_open h ch) ->
  exists ls' h', close_all l ls h = Ok (ls', h').
Proof.
  revert ls h. induction l as [|[k a] l IH]; intros ls h; cbn [send_all close_all]; rewrite ?fmap_cons; cbn [fst snd]; [eauto|].
  intros [Hnotin Hnd]%NoDup_cons Hall.
  destruct (chan_close_open h a (Hall a (list_elem_of_here _ _))) as [h1 Hcl].
  rewrite Hcl. simpl. apply IH; [assumption|].
  intros ch Hch. apply chan_close_effect in Hcl as (_ & _ & _ & Hother & _).
  unfold is_open. rewrite Hother; [|intros ->; contradiction].
  apply Hall. now apply list_elem_of_further.
Qed.

End LoopFacts.

(** ** The invariant of the registry *)

Lemma run_ok_registry (r : Run) : run_ok r -> registry_ok r.1.
Proof.
  intros (_ & Hent & Hinj & _). split.
  - intros id ch H. now apply Hent in H.
  - intros id1 id2 ch H1 H2.
    apply Hent in H1 as [H1 _]. apply Hent in H2 as [H2 _].
    now pose proof (Hinj _ _ H1 H2 eq_refl) as [= ->].
Qed.

(** The channels the loops of [send] and [Close] range over. *)
Lemma registry_range (s : State) :
  registry_ok s ->
  NoDup ((map_to_list (listeners (sink s))).*2)
  /\ forall ch, ch ∈ (map_to_list (listeners (sink s))).*2 -> is_open (chans s) ch.
Proof.
  intros [Hopen Hinj]. split.
  - apply NoDup_fmap_2_strong; [|apply NoDup_map_to_list].
    intros [k1 c1] [k2 c2] H1%elem_of_map_to_list H2%elem_of_map_to_list Heq.
    simpl in Heq. subst c2. now rewrite (Hinj k1 k2 c1).
  - intros ch ([k c] & -> & Hin%elem_of_map_to_list)%list_elem_of_fmap.
    now apply (Hopen k).
Qed.

Lemma in_range (ls : gmap string nat) (ch : nat) :
  ch ∈ (map_to_list ls).*2 <-> exists id, ls !! id = Some ch.
Proof.
  rewrite list_elem_of_fmap. split.
  - intros ([k c] & -> & Hin%elem_of_map_to_list). eauto.
  - intros [id H]. exists (id, ch). split; [reflexivity|].
    now apply elem_of_map_to_list.
Qed.

Lemma is_open_app (h h2 : list chan) (ch : nat) :
  is_open h ch -> is_open (h ++ h2) ch.
Proof.
  unfold is_open. destruct (h !! ch) as [c|] eqn:Hc; [|discriminate].
  now rewrite (lookup_app_l_Some _ _ _ _ Hc).
Qed.

Lemma run_ok_start : run_ok start.
Proof.
  split; [reflexivity|]. split; [|split].
  - intros id ch H. simpl in H. now rewrite lookup_empty in H.
  - intros f g Hf. now apply elem_of_nil in Hf.
  - intros f Hf. now apply elem_of_nil in Hf.
Qed.

Lemma Listen_run_ok (id : string) (s : State) (hs : list ListenCancelFunc) :
  run_ok (s, hs) -> run_ok ((Listen id s).2, hs ++ [(Listen id s).1.2]).
Proof.
  intros (Hcv & Hent & Hinj & Hlt). unfold run_ok. simpl in *.
  split; [assumption|]. split; [|split].
  - intros id' ch [[-> <-]|[Hne H]]%lookup_insert_Some.
    + split.
      * apply elem_of_app. right. now apply list_elem_of_singleton.
      * unfold is_open. now rewrite list_lookup_middle.
    + destruct (Hent _ _ H) as [Hin Hopen]. split.
      * apply elem_of_app. now left.
      * now apply is_open_app.
  - intros f g [Hf|Hf%list_elem_of_singleton]%elem_of_app
               [Hg|Hg%list_elem_of_singleton]%elem_of_app Heq.
    + now apply Hinj.
    + subst g. simpl in Heq. apply Hlt in Hf. lia.
    + subst f. simpl in Heq. apply Hlt in Hg. lia.
    + congruence.
  - intros f [Hf|Hf%list_elem_of_singleton]%elem_of_app; rewrite length_app; simpl.
    + apply Hlt in Hf. lia.
    + subst f. simpl. lia.
Qed.

Lemma cancel_run_ok (f : ListenCancelFunc) (s s' : State) (hs : list ListenCancelFunc) :
  run_ok (s, hs) -> f ∈ hs -> cancel f s = Ok s' -> run_ok (s', hs).
Proof.
  intros (Hcv & Hent & Hinj & Hlt) Hf Hrun. unfold cancel in Hrun. simpl in *.
  destruct (chan_close (chans s) (cf_ch f)) as [h1| |] eqn:Hcl; try discriminate.
  injection Hrun as <-.
  apply chan_close_effect in Hcl as (Hlen & _ & _ & Hother & _).
  unfold run_ok. simpl. split; [assumption|]. split; [|split].
  - intros id ch [Hne H]%lookup_delete_Some.
    destruct (Hent _ _ H) as [Hin Hopen]. split; [assumption|].
    unfold is_open. rewrite Hother; [assumption|].
    intros ->. apply Hne. now rewrite <- (Hinj _ _ Hin Hf eq_refl).
  - assumption.
  - intros g Hg. rewrite Hlen. now apply Hlt.
Qed.

Lemma Close_effect (s s' : State) (e : option error) :
  Close s = Ok (e, s') ->
  e = None /\ listeners (sink s') = ∅ /\ converter (sink s') = converter (sink s)
  /\ length (chans s') = length (chans s)
  /\ (forall id ch, listeners (sink s) !! id = Some ch ->
                    is_open (chans s) ch /\ is_closed (chans s') ch)
  /\ (forall ch, (forall id, listeners (sink s) !! id <> Some ch) ->
                 chans s' !! ch = chans s !! ch)
  /\ (forall ch, sent_on (chans s') ch = sent_on (chans s) ch).
Proof.
  unfold Close.
  destruct (close_all _ _ _) as [[ls' h']| |] eqn:Hcl; try discriminate.
  simpl. intros [= <- <-]. simpl.
  apply close_all_Ok in Hcl as (Hlen & Hmap & Hchs & Hrest & Hsent).
  split; [reflexivity|]. split; [|split; [reflexivity|split; [assumption|]]].
  - apply map_empty. intros k. rewrite Hmap.
    destruct (decide _) as [|Hout]; [reflexivity|].
    destruct (listeners (sink s) !! k) as [ch|] eqn:Hk; [|reflexivity].
    exfalso. apply Hout. apply list_elem_of_fmap. exists (k, ch).
    split; [reflexivity | now apply elem_of_map_to_list].
  - split; [|split; [|assumption]].
    + intros id ch H. apply Hchs, in_range. eauto.
    + intros ch Hno. apply Hrest. intros [id H]%in_range. now apply (Hno id).
Qed.

Lemma Close_total (s : State) :
  registry_ok s -> exists s', Close s = Ok (None, s').
Proof.
  intros [Hnd Hopen]%registry_range. unfold Close.
  destruct (close_all_total _ (listeners (sink s)) _ Hnd Hopen) as (ls' & h' & ->).
  simpl. eauto.
Qed.

Lemma Close_run_ok (s s' : State) (e : option error) (hs : list ListenCancelFunc) :
  run_ok (s, hs) -> Close s = Ok (e, s') -> run_ok (s', hs).
Proof.
  intros (Hcv & Hent & Hinj & Hlt) (_ & Hemp & Hcv' & Hlen & _)%Close_effect.
  unfold run_ok. simpl in *. split; [congruence|]. split; [|split].
  - intros id ch H. rewrite Hemp, lookup_empty in H. discriminate.
  - assumption.
  - intros f Hf. rewrite Hlen. now apply Hlt.
Qed.

(** A broadcast that returns has appended the message to the channel of
    every entry, and has touched nothing else. *)
Lemma send_effect (m : Message) (s s' : State) :
  registry_ok s -> send m s = Ok s' ->
  sink s' = sink s /\ length (chans s') = length (chans s)
  /\ (forall id ch, listeners (sink s) !! id = Some ch ->
                    chans s' !! ch = push m <$> chans s !! ch)
  /\ (forall ch, (forall id, listeners (sink s) !! id <> Some ch) ->
                 chans s' !! ch = chans s !! ch).
Proof.
  intros [Hnd _]%registry_range. unfold send.
  destruct (send_all _ _ _) as [h'| |] eqn:Hs; try discriminate.
  simpl. intros [= <-]. simpl.
  destruct (send_all_Ok _ _ _ _ Hs Hnd) as [Hlen Hlook].
  split; [reflexivity|]. split; [assumption|]. split.
  - intros id ch H. rewrite Hlook, decide_True; [reflexivity|].
    apply in_range. eauto.
  - intros ch Hno. rewrite Hlook, decide_False; [reflexivity|].
    intros [id H]%in_range. now apply (Hno id).
Qed.

Lemma send_no_panic (m : Message) (s : State) (msg : string) :
  registry_ok s -> send m s <> Panic msg.
Proof.
  intros [_ Hopen]%registry_range. unfold send.
  pose proof (send_all_no_panic _ m _ msg Hopen) as Hnp.
  destruct (send_all _ _ _); simpl; congruence.
Qed.

Lemma send_total (m : Message) (s : State) :
  registry_ok s ->
  (forall id ch, listeners (sink s) !! id = Some ch -> has_room (chans s) ch) ->
  exists s', send m s = Ok s'.
Proof.
  intros [Hnd Hopen]%registry_range Hroom. unfold send.
  destruct (send_all_room (map_to_list (listeners (sink s))) m (chans s) Hnd)
    as [h' ->].
  - intros ch Hch. split; [now apply Hopen|].
    apply in_range in Hch as [id H]. now apply (Hroom id).
  - simpl. eauto.
Qed.

Lemma Write_Ok (p : string) (s s' : State) (n : Z) (e : option error) :
  Write p s = Ok ((n, e), s') ->
  match converter (sink s) p with
  | (_, Some err) =>
      n = 0 /\ e = Some (fmt_Errorf_w "convert bytes to message: " err) /\ s' = s
  | (m, None) => n = len p /\ e = None /\ send m s = Ok s'
  end.
Proof.
  unfold Write. destruct (converter (sink s) p) as [m [err|]].
  - now intros [= <- <- <-].
  - destruct (send m s) as [s1| |]; simpl; try discriminate.
    now intros [= <- <- <-].
Qed.

Lemma Write_run_ok (p : string) (s s' : State) (x : Z * option error)
      (hs : list ListenCancelFunc) :
  run_ok (s, hs) -> Write p s = Ok (x, s') -> run_ok (s', hs).
Proof.
  intros Hok Hw. destruct x as [n e]. apply Write_Ok in Hw.
  destruct (converter (sink s) p) as [m [err|]].
  - now destruct Hw as (_ & _ & ->).
  - destruct Hw as (_ & _ & Hs).
    apply send_effect in Hs as (Hsink & Hlen & Hin & _);
      [|now apply (run_ok_registry (s, hs))].
    destruct Hok as (Hcv & Hent & Hinj & Hlt). unfold run_ok. simpl in *.
    rewrite Hsink, Hlen. split; [assumption|]. split; [|split]; [|assumption..].
    intros id ch H. destruct (Hent _ _ H) as [Hhs Hopen]. split; [assumption|].
    unfold is_open in *. rewrite (Hin _ _ H).
    destruct (chans s !! ch); [assumption | discriminate].
Qed.

Lemma step_run_ok (o : op) (r r' : Run) :
  run_ok r -> step o r = Ok r' -> run_ok r'.
Proof.
  destruct r as [s hs]. intros Hok Hstep.
  destruct o as [id|k| |p| |k]; simpl in Hstep.
  - injection Hstep as <-. now apply Listen_run_ok.
  - destruct (hs !! k) as [f|] eqn:Hk; [|now injection Hstep as <-].
    destruct (cancel f s) as [s1| |] eqn:Hc; simpl in Hstep; try discriminate.
    injection Hstep as <-.
    eapply cancel_run_ok; eauto using list_elem_of_lookup_2.
  - destruct (Close s) as [[e s1]| |] eqn:Hc; simpl in Hstep; try discriminate.
    injection Hstep as <-. eapply Close_run_ok; eauto.
  - destruct (Write p s) as [[x s1]| |] eqn:Hw; simpl in Hstep; try discriminate.
    injection Hstep as <-. eapply Write_run_ok; eauto.
  - now injection Hstep as <-.
  - destruct (hs !! k) as [f|] eqn:Hk; [|now injection Hstep as <-].
    destruct (chan_recv (chans s) (cf_ch f)) as [[x h1]| |] eqn:Hr;
      simpl in Hstep; try discriminate.
    destruct x as [m okb]. injection Hstep as <-.
    apply chan_recv_effect in Hr as (Hlen & Hcl & _).
    destruct Hok as (Hcv & Hent & Hinj & Hlt). unfold run_ok. simpl in *.
    split; [assumption|]. split; [|split]; [|assumption|].
    + intros id ch H. destruct (Hent _ _ H) as [Hhs Hopen]. split; [assumption|].
      unfold is_open. now rewrite Hcl.
    + intros g Hg. rewrite Hlen. now apply Hlt.
Qed.

Lemma run_run_ok (tr : list op) (r r' : Run) :
  run_ok r -> run tr r = Ok r' -> run_ok r'.
Proof.
  revert r. induction tr as [|o tr IH]; intros r Hok; simpl.
  - now intros [= <-].
  - destruct (step o r) as [r1| |] eqn:Hs; simpl; try discriminate.
    apply IH. eapply step_run_ok; eauto.
Qed.

(** Every state a run from a new sink reaches satisfies the invariant. *)
Lemma reachable_ok (tr : list op) (r : Run) :
  run tr start = Ok r -> run_ok r.
Proof. apply run_run_ok, run_ok_start. Qed.

(** ** What the queues receive *)

Lemma send_all_flags (l : list (string * nat)) (m : Message) (h h' : list chan) :
  send_all l m h = Ok h' ->
  forall ch, closed <$> h' !! ch = closed <$> h !! ch.
Proof.
  revert h. induction l as [|[k a] l IH]; intros h; cbn [send_all].
  - now intros [= <-].
  - destruct (chan_send h a m) as [h1| |] eqn:Hs; simpl; try discriminate.
    intros Hrun ch. rewrite (IH _ Hrun).
    apply chan_send_Ok in Hs as (c & Hc & _ & _ & ->).
    now apply (update_same_field closed h a c).
Qed.

(** Calls other than [Write] send nothing. *)
Lemma step_quiet (o : op) (r r' : Run) (ch : nat) :
  (forall p, o <> OpWrite p) -> step o r = Ok r' ->
  (ch < length (chans r.1))%nat ->
  sent_on (chans r'.1) ch = sent_on (chans r.1) ch.
Proof.
  destruct r as [s hs]. intros Hnw Hstep Hlt.
  destruct o as [id|k| |p| |k]; simpl in Hstep.
  - injection Hstep as <-. simpl. unfold sent_on. now rewrite lookup_app_l.
  - destruct (hs !! k) as [f|]; [|now injection Hstep as <-].
    unfold cancel in Hstep.
    destruct (chan_close (chans s) (cf_ch f)) as [h1| |] eqn:Hc;
      simpl in Hstep; try discriminate.
    injection Hstep as <-. simpl.
    now apply chan_close_effect in Hc as (_ & _ & _ & _ & Hsent & _).
  - destruct (Close s) as [[e s1]| |] eqn:Hc; simpl in Hstep; try discriminate.
    injection Hstep as <-. simpl.
    now apply Close_effect in Hc as (_ & _ & _ & _ & _ & _ & Hsent).
  - now destruct (Hnw p).
  - now injection Hstep as <-.
  - destruct (hs !! k) as [f|]; [|now injection Hstep as <-].
    destruct (chan_recv (chans s) (cf_ch f)) as [[x h1]| |] eqn:Hr;
      simpl in Hstep; try discriminate.
    destruct x as [m okb]. injection Hstep as <-. simpl.
    now apply chan_recv_effect in Hr as (_ & _ & Hsent).
Qed.

Lemma step_write (p : string) (s : State) (hs : list ListenCancelFunc) (r' : Run) :
  run_ok (s, hs) -> step (OpWrite p) (s, hs) = Ok r' ->
  match ConvertBytesToMessage p with
  | (_, Some _) => r' = (s, hs)
  | (m, None) => exists s', r' = (s', hs) /\ send m s = Ok s'
  end.
Proof.
  intros Hok Hstep. simpl in Hstep.
  destruct (Write p s) as [[[n e] s1]| |] eqn:Hw; simpl in Hstep; try discriminate.
  injection Hstep as <-. apply Write_Ok in Hw.
  destruct Hok as (Hcv & _). simpl in Hcv. rewrite Hcv in Hw.
  destruct (ConvertBytesToMessage p) as [m [err|]].
  - now destruct Hw as (_ & _ & ->).
  - destruct Hw as (_ & _ & Hs). eauto.
Qed.

(** The queue of an entry of the map receives exactly what the call
    delivers. *)
Lemma step_sent (o : op) (r r' : Run) (id : string) (ch : nat) :
  run_ok r -> step o r = Ok r' ->
  listeners (sink r.1) !! id = Some ch ->
  sent_on (chans r'.1) ch = (fun l => l ++ delivered o) <$> sent_on (chans r.1) ch.
Proof.
  intros Hok Hstep Hreg.
  assert (Hlt : (ch < length (chans r.1))%nat).
  { destruct Hok as (_ & Hent & _). destruct (Hent _ _ Hreg) as [_ Ho].
    unfold is_open in Ho. destruct (chans r.1 !! ch) eqn:Hc; [|discriminate].
    now apply lookup_lt_Some in Hc. }
  assert (Hquiet : delivered o = [] -> sent_on (chans r'.1) ch = sent_on (chans r.1) ch ->
                   sent_on (chans r'.1) ch
                   = (fun l => l ++ delivered o) <$> sent_on (chans r.1) ch).
  { intros -> ->. destruct (sent_on _ _); simpl; [|reflexivity].
    now rewrite app_nil_r. }
  destruct o as [id'|k| |p| |k];
    try (apply Hquiet; [reflexivity|];
         apply (fun H => step_quiet _ _ _ _ H Hstep); [not_a_write | assumption]).
  destruct r as [s hs]. apply step_write in Hstep; [|assumption].
  simpl. destruct (ConvertBytesToMessage p) as [m [err|]].
  - subst r'. simpl. destruct (sent_on _ _); simpl; [|reflexivity].
    now rewrite app_nil_r.
  - destruct Hstep as (s' & -> & Hs). simpl.
    apply send_effect in Hs as (_ & _ & Hin & _);
      [|now apply (run_ok_registry (s, hs))].
    unfold sent_on. rewrite (Hin _ _ Hreg).
    now destruct (chans s !! ch).
Qed.

(** A channel that is in no entry of the map receives nothing, and enters
    no entry later. *)
Lemma step_unregistered (o : op) (r r' : Run) (ch : nat) :
  run_ok r -> step o r = Ok r' ->
  (ch < length (chans r.1))%nat ->
  (forall id, listeners (sink r.1) !! id <> Some ch) ->
  sent_on (chans r'.1) ch = sent_on (chans r.1) ch
  /\ (forall id, listeners (sink r'.1) !! id <> Some ch).
Proof.
  intros Hok Hstep Hlt Hno. split.
  - destruct o as [id'|k| |p| |k];
      try (apply (fun H => step_quiet _ _ _ _ H Hstep); [not_a_write | assumption]).
    destruct r as [s hs]. apply step_write in Hstep; [|assumption].
    destruct (ConvertBytesToMessage p) as [m [err|]]; [now subst r'|].
    destruct Hstep as (s' & -> & Hs). simpl in *.
    apply send_effect in Hs as (_ & _ & _ & Hout);
      [|now apply (run_ok_registry (s, hs))].
    unfold sent_on. now rewrite (Hout ch Hno).
  - destruct r as [s hs]. simpl in *.
    destruct o as [id'|k| |p| |k]; simpl in Hstep.
    + injection Hstep as <-. simpl.
      intros id [[_ Heq]|[_ H]]%lookup_insert_Some; [lia | now apply (Hno id)].
    + destruct (hs !! k) as [f|]; [|now injection Hstep as <-].
      unfold cancel in Hstep.
      destruct (chan_close _ _) as [h1| |]; simpl in Hstep; try discriminate.
      injection Hstep as <-. simpl.
      intros id [_ H]%lookup_delete_Some. now apply (Hno id).
    + destruct (Close s) as [[e s1]| |] eqn:Hc; simpl in Hstep; try discriminate.
      injection Hstep as <-. simpl.
      apply Close_effect in Hc as (_ & Hemp & _).
      intros id. now rewrite Hemp, lookup_empty.
    + apply (step_write p s hs r' Hok) in Hstep.
      destruct (ConvertBytesToMessage p) as [m [err|]]; [now subst r'|].
      destruct Hstep as (s' & -> & Hs). simpl.
      apply send_effect in Hs as (-> & _); [assumption|].
      now apply (run_ok_registry (s, hs)).
    + now injection Hstep as <-.
    + destruct (hs !! k) as [f|]; [|now injection Hstep as <-].
      destruct (chan_recv _ _) as [[[m okb] h1]| |]; simpl in Hstep; try discriminate.
      now injection Hstep as <-.
Qed.

Lemma sent_on_lt (h : list chan) (ch : nat) (l : list Message) :
  sent_on h ch = Some l -> (ch < length h)%nat.
Proof.
  unfold sent_on. destruct (h !! ch) eqn:Hc; [|discriminate].
  intros _. now apply lookup_lt_Some in Hc.
Qed.

Lemma run_unregistered (tr : list op) (r r2 : Run) (ch : nat) (l0 : list Message) :
  run_ok r -> run tr r = Ok r2 ->
  sent_on (chans r.1) ch = Some l0 ->
  (forall id, listeners (sink r.1) !! id <> Some ch) ->
  sent_on (chans r2.1) ch = Some l0.
Proof.
  revert r. induction tr as [|o tr IH]; intros r Hok; simpl.
  - now intros [= <-].
  - destruct (step o r) as [r1| |] eqn:Hs; simpl; try discriminate.
    intros Hrun Hsent Hno.
    destruct (step_unregistered o r r1 ch Hok Hs (sent_on_lt _ _ _ Hsent) Hno)
      as [Hsame Hno1].
    apply (IH r1); [eapply step_run_ok; eauto | assumption | congruence | assumption].
Qed.

(** Along a run, a queue holds what it held, then the messages ingested by
    some first part of the run; by all of it when its entry stays in the
    map. *)
Lemma run_sent (ch : nat) (tr : list op) (r r2 : Run) (l0 : list Message) :
  run_ok r -> run tr r = Ok r2 ->
  sent_on (chans r.1) ch = Some l0 ->
  (exists n, sent_on (chans r2.1) ch = Some (l0 ++ ingested (take n tr)))
  /\ (forall id, stays_registered id ch tr r = true ->
                 sent_on (chans r2.1) ch = Some (l0 ++ ingested tr)).
Proof.
  revert r l0. induction tr as [|o tr IH]; intros r l0 Hok Hrun Hsent.
  - simpl in Hrun. injection Hrun as <-. unfold ingested. simpl.
    rewrite app_nil_r. split; [exists 0%nat; simpl; now rewrite app_nil_r | auto].
  - simpl in Hrun. destruct (step o r) as [r1| |] eqn:Hs; simpl in Hrun; try discriminate.
    pose proof (step_run_ok o r r1 Hok Hs) as Hok1.
    destruct (decide (ch ∈ (map_to_list (listeners (sink r.1))).*2)) as [Hin|Hout].
    + apply in_range in Hin as [id0 Hreg].
      pose proof (step_sent o r r1 id0 ch Hok Hs Hreg) as Hsent1.
      rewrite Hsent in Hsent1. simpl in Hsent1.
      destruct (IH r1 _ Hok1 Hrun Hsent1) as [[n Hn] Hall]. split.
      * exists (S n). rewrite Hn, <- app_assoc. reflexivity.
      * intros id Hst. simpl in Hst. rewrite Hs in Hst.
        apply andb_true_iff in Hst as [_ Hst].
        rewrite (Hall id Hst), <- app_assoc. reflexivity.
    + assert (Hno : forall id, listeners (sink r.1) !! id <> Some ch).
      { intros id H. apply Hout, in_range. eauto. }
      split.
      * exists 0%nat. unfold ingested. simpl. rewrite app_nil_r.
        apply (run_unregistered (o :: tr) r); try assumption.
        simpl. now rewrite Hs.
      * intros id Hst. simpl in Hst.
        apply andb_true_iff in Hst as [Hreg%bool_decide_eq_true _].
        now destruct (Hno id).
Qed.

(** A closed channel stays closed, whatever is called. *)
Lemma step_closed (o : op) (r r' : Run) (ch : nat) :
  step o r = Ok r' -> is_closed (chans r.1) ch -> is_closed (chans r'.1) ch.
Proof.
  destruct r as [s hs]. unfold is_closed. simpl. intros Hstep Hcl.
  destruct o as [id|k| |p| |k]; simpl in Hstep.
  - injection Hstep as <-. simpl.
    destruct (chans s !! ch) as [c|] eqn:Hc; [|discriminate].
    now rewrite (lookup_app_l_Some _ _ _ _ Hc).
  - destruct (hs !! k) as [f|]; [|now injection Hstep as <-].
    unfold cancel in Hstep.
    destruct (chan_close (chans s) (cf_ch f)) as [h1| |] eqn:Hc;
      simpl in Hstep; try discriminate.
    injection Hstep as <-. simpl.
    apply chan_close_effect in Hc as (_ & Hopen & _ & Hother & _).
    rewrite Hother; [assumption|]. intros ->. unfold is_open in Hopen. congruence.
  - destruct (Close s) as [[e s1]| |] eqn:Hc; simpl in Hstep; try discriminate.
    injection Hstep as <-. simpl.
    apply Close_effect in Hc as (_ & _ & _ & _ & Hin & Hout & _).
    rewrite Hout; [assumption|]. intros id H.
    destruct (Hin _ _ H) as [Hopen _]. unfold is_open in Hopen. congruence.
  - destruct (Write p s) as [[[n e] s1]| |] eqn:Hw; simpl in Hstep; try discriminate.
    injection Hstep as <-. simpl. apply Write_Ok in Hw.
    destruct (converter (sink s) p) as [m [err|]].
    + now destruct Hw as (_ & _ & ->).
    + destruct Hw as (_ & _ & Hs). unfold send in Hs.
      destruct (send_all _ _ _) as [h1| |] eqn:Hsa; simpl in Hs; try discriminate.
      injection Hs as <-. simpl. now rewrite (send_all_flags _ _ _ _ Hsa).
  - now injection Hstep as <-.
  - destruct (hs !! k) as [f|]; [|now injection Hstep as <-].
    destruct (chan_recv _ _) as [[[m okb] h1]| |] eqn:Hr; simpl in Hstep; try discriminate.
    injection Hstep as <-. simpl.
    apply chan_recv_effect in Hr as (_ & Hflags & _). now rewrite Hflags.
Qed.

Lemma run_closed (tr : list op) (r r' : Run) (ch : nat) :
  run tr r = Ok r' -> is_closed (chans r.1) ch -> is_closed (chans r'.1) ch.
Proof.
  revert r. induction tr as [|o tr IH]; intros r; simpl.
  - now intros [= <-].
  - destruct (step o r) as [r1| |] eqn:Hs; simpl; try discriminate.
    intros Hrun Hcl. apply (IH r1 Hrun). eapply step_closed; eauto.
Qed.

(** ** Full queues and the consumers *)

Lemma chan_send_chans_ok (h h' : list chan) (ch : nat) (m : Message) :
  Forall chan_ok h -> chan_send h ch m = Ok h' -> Forall chan_ok h'.
Proof.
  intros Hall (c & Hc & _ & Hroom & ->)%chan_send_Ok.
  apply Forall_insert; [assumption|].
  destruct (Forall_lookup_1 _ _ _ _ Hall Hc) as [Hcap _].
  split; simpl; [assumption|]. rewrite length_app. simpl. lia.
Qed.

Lemma chan_close_chans_ok (h h' : list chan) (ch : nat) :
  Forall chan_ok h -> chan_close h ch = Ok h' -> Forall chan_ok h'.
Proof.
  intros Hall (c & Hc & _ & ->)%chan_close_Ok.
  apply Forall_insert; [assumption|].
  exact (Forall_lookup_1 _ _ _ _ Hall Hc).
Qed.

Lemma send_all_chans_ok (l : list (string * nat)) (m : Message) (h h' : list chan) :
  Forall chan_ok h -> send_all l m h = Ok h' -> Forall chan_ok h'.
Proof.
  revert h. induction l as [|[k a] l IH]; intros h Hall; cbn [send_all].
  - now intros [= <-].
  - destruct (chan_send h a m) as [h1| |] eqn:Hs; simpl; try discriminate.
    apply IH. eapply chan_send_chans_ok; eauto.
Qed.

Lemma close_all_chans_ok (l : list (string * nat)) (ls ls' : gmap string nat)
      (h h' : list chan) :
  Forall chan_ok h -> close_all l ls h = Ok (ls', h') -> Forall chan_ok h'.
Proof.
  revert ls h. induction l as [|[k a] l IH]; intros ls h Hall; cbn [close_all].
  - now intros [= _ <-].
  - destruct (chan_close h a) as [h1| |] eqn:Hs; simpl; try discriminate.
    apply IH. eapply chan_close_chans_ok; eauto.
Qed.

(** Receiving from a full queue returns its oldest message and leaves
    room. *)
Lemma chan_recv_full (h : list chan) (ch : nat) (c : chan) :
  h !! ch = Some c -> chan_ok c -> ~ (length (buf c) < cap c)%nat ->
  exists m rest,
    buf c = m :: rest
    /\ chan_recv h ch = Ok (m, true, <[ch := mkChan (cap c) rest (closed c) (sent c)]> h)
    /\ (length rest < cap c)%nat.
Proof.
  intros Hc [Hcap Hle] Hfull. unfold chan_recv. rewrite Hc.
  destruct (buf c) as [|m rest] eqn:Hbuf; simpl in *; [lia|].
  exists m, rest. repeat split. lia.
Qed.

Lemma step_chans_ok (o : op) (r r' : Run) :
  Forall chan_ok (chans r.1) -> step o r = Ok r' -> Forall chan_ok (chans r'.1).
Proof.
  destruct r as [s hs]. simpl. intros Hall Hstep.
  destruct o as [id|k| |p| |k]; simpl in Hstep.
  - injection Hstep as <-. simpl. apply Forall_app. split; [assumption|].
    apply Forall_singleton. split; simpl; lia.
  - destruct (hs !! k) as [f|]; [|now injection Hstep as <-].
    unfold cancel in Hstep.
    destruct (chan_close (chans s) (cf_ch f)) as [h1| |] eqn:Hc;
      simpl in Hstep; try discriminate.
    injection Hstep as <-. simpl. eapply chan_close_chans_ok; eauto.
  - unfold Close in Hstep.
    destruct (close_all _ _ _) as [[ls' h']| |] eqn:Hc; simpl in Hstep; try discriminate.
    injection Hstep as <-. simpl. eapply close_all_chans_ok; eauto.
  - destruct (Write p s) as [[[n e] s1]| |] eqn:Hw; simpl in Hstep; try discriminate.
    injection Hstep as <-. simpl. apply Write_Ok in Hw.
    destruct (converter (sink s) p) as [m [err|]].
    + now destruct Hw as (_ & _ & ->).
    + destruct Hw as (_ & _ & Hs). unfold send in Hs.
      destruct (send_all _ _ _) as [h1| |] eqn:Hsa; simpl in Hs; try discriminate.
      injection Hs as <-. simpl. eapply send_all_chans_ok; eauto.
  - now injection Hstep as <-.
  - destruct (hs !! k) as [f|]; [|now injection Hstep as <-].
    unfold chan_recv in Hstep.
    destruct (chans s !! cf_ch f) as [c|] eqn:Hc; simpl in Hstep; try discriminate.
    destruct (buf c) as [|m rest] eqn:Hbuf.
    + destruct (closed c); simpl in Hstep; try discriminate.
      now injection Hstep as <-.
    + simpl in Hstep. injection Hstep as <-. simpl.
      apply Forall_insert; [assumption|].
      destruct (Forall_lookup_1 _ _ _ _ Hall Hc) as [Hcap Hle].
      rewrite Hbuf in Hle. split; simpl in *; [assumption | lia].
Qed.

Lemma run_chans_ok (tr : list op) (r r' : Run) :
  Forall chan_ok (chans r.1) -> run tr r = Ok r' -> Forall chan_ok (chans r'.1).
Proof.
  revert r. induction tr as [|o tr IH]; intros r Hall; simpl.
  - now intros [= <-].
  - destruct (step o r) as [r1| |] eqn:Hs; simpl; try discriminate.
    apply IH. eapply step_chans_ok; eauto.
Qed.

Lemma run_app (tr1 tr2 : list op) (r r1 : Run) :
  run tr1 r = Ok r1 -> run (tr1 ++ tr2) r = run tr2 r1.
Proof.
  revert r. induction tr1 as [|o tr1 IH]; intros r; simpl.
  - now intros [= <-].
  - destruct (step o r) as [r'| |]; simpl; try discriminate. apply IH.
Qed.

(** The consumers named in [K] can receive until each of their queues has
    room; nothing but the buffers changes. *)
Lemma drain (K : list nat) (s : State) (hs : list ListenCancelFunc) :
  Forall chan_ok (chans s) ->
  (forall f, f ∈ hs -> (cf_ch f < length (chans s))%nat) ->
  exists trr s',
    Forall is_recv trr
    /\ run trr (s, hs) = Ok (s', hs)
    /\ sink s' = sink s
    /\ Forall chan_ok (chans s')
    /\ length (chans s') = length (chans s)
    /\ (forall ch, closed <$> chans s' !! ch = closed <$> chans s !! ch)
    /\ (forall ch, has_room (chans s) ch -> has_room (chans s') ch)
    /\ (forall k f, k ∈ K -> hs !! k = Some f -> has_room (chans s') (cf_ch f)).
Proof.
  intros Hall Hlt. induction K as [|k K IH].
  - exists [], s. split; [constructor|]. split; [reflexivity|].
    repeat split; auto. intros k f Hk. now apply elem_of_nil in Hk.
  - destruct IH as (trr & s1 & Hrecv & Hrun & Hsink & Hall1 & Hlen & Hcl & Hmono & HK).
    assert (Hkeep : (forall f, hs !! k = Some f -> has_room (chans s1) (cf_ch f)) ->
                    exists trr s',
                      Forall is_recv trr /\ run trr (s, hs) = Ok (s', hs)
                      /\ sink s' = sink s /\ Forall chan_ok (chans s')
                      /\ length (chans s') = length (chans s)
                      /\ (forall ch, closed <$> chans s' !! ch = closed <$> chans s !! ch)
                      /\ (forall ch, has_room (chans s) ch -> has_room (chans s') ch)
                      /\ (forall k' f, k' ∈ k :: K -> hs !! k' = Some f ->
                                       has_room (chans s') (cf_ch f))).
    { intros Hk. exists trr, s1. repeat split; auto.
      intros k' f [->|Hin]%elem_of_cons Hf; [now apply Hk | now apply (HK k')]. }
    destruct (hs !! k) as [f|] eqn:Hf; [|apply Hkeep; discriminate].
    assert (Hin : f ∈ hs) by (eapply list_elem_of_lookup_2; eauto).
    destruct (lookup_lt_is_Some_2 (chans s1) (cf_ch f)) as [c Hc];
      [rewrite Hlen; now apply Hlt|].
    destruct (decide (length (buf c) < cap c)%nat) as [Hroom|Hfull].
    { apply Hkeep. intros f' [= <-]. exists c. auto. }
    pose proof (Forall_lookup_1 _ _ _ _ Hall1 Hc) as Hcok.
    destruct (chan_recv_full _ _ _ Hc Hcok Hfull) as (m & rest & Hbuf & Hr & Hrest).
    set (c' := mkChan (cap c) rest (closed c) (sent c)) in *.
    exists (trr ++ [OpRecv k]), (set_chans (<[cf_ch f := c']> (chans s1)) s1).
    split; [apply Forall_app; split; [assumption | now apply Forall_singleton]|].
    split; [rewrite (run_app _ _ _ _ Hrun); simpl; rewrite Hf, Hr; reflexivity|].
    simpl. split; [assumption|].
    split.
    { apply Forall_insert; [assumption|]. destruct Hcok. split; simpl; [assumption | lia]. }
    split; [now rewrite length_insert|].
    assert (Hroom' : forall ch, has_room (chans s1) ch ->
                                has_room (<[cf_ch f := c']> (chans s1)) ch).
    { intros ch (c0 & Hc0 & Hr0). unfold has_room.
      rewrite (update_lookup _ _ _ c' ch Hc).
      destruct (decide (ch = cf_ch f)) as [->|]; [|eauto].
      exists c'. split; [reflexivity | exact Hrest]. }
    split; [|split].
    + intros ch. rewrite <- Hcl. now apply (update_same_field closed _ _ c).
    + intros ch Hch. now apply Hroom', Hmono.
    + intros k' f' [->|Hk']%elem_of_cons Hf'.
      * rewrite Hf in Hf'. injection Hf' as <-. unfold has_room.
        rewrite (update_lookup _ _ _ c' _ Hc), decide_True by reflexivity.
        exists c'. split; [reflexivity | exact Hrest].
      * now apply Hroom', (HK k').
Qed.

(** After the consumers of the full queues have received, every registered
    queue has room. *)
Lemma consumers_make_room (s : State) (hs : list ListenCancelFunc) :
  run_ok (s, hs) -> Forall chan_ok (chans s) ->
  exists trr s',
    Forall is_recv trr /\ run trr (s, hs) = Ok (s', hs)
    /\ registry_ok s' /\ converter (sink s') = converter (sink s)
    /\ (forall id ch, listeners (sink s') !! id = Some ch -> has_room (chans s') ch).
Proof.
  intros Hok Hall. pose proof Hok as (Hcv & Hent & Hinj & Hlt). simpl in *.
  destruct (drain (seq 0 (length hs)) s hs Hall Hlt)
    as (trr & s' & Hrecv & Hrun & Hsink & _ & _ & _ & _ & HK).
  exists trr, s'. split; [assumption|]. split; [assumption|].
  split; [apply (run_ok_registry _ (run_run_ok _ _ _ Hok Hrun))|].
  rewrite Hsink. split; [reflexivity|].
  intros id ch [Hin _]%Hent.
  apply list_elem_of_lookup_1 in Hin as [k Hk].
  apply (HK k (mkCancel ch id)); [|assumption].
  apply elem_of_seq. apply lookup_lt_Some in Hk. lia.
Qed.

(** * The registry in the words of the design document *)

(** C5: in every state a run reaches, [Write] of a record that parses does
    not panic, and when it returns it returns the length of the input and a
    nil error; it returns when every registered queue has room (with no
    subscriber at all, always).  A full queue makes it wait, which is no
    return value, and the wait ends: once the consumers have received, the
    call returns the length and a nil error. *)
Theorem C5_write_returns_input_length
        (tr : list op) (s : State) (hs : list ListenCancelFunc) (p : string) :
  run tr start = Ok (s, hs) ->
  snd (ConvertBytesToMessage p) = None ->
  (forall msg, Write p s <> Panic msg)
  /\ (forall n e s', Write p s = Ok ((n, e), s') -> n = len p /\ e = None)
  /\ ((forall id ch, listeners (sink s) !! id = Some ch -> has_room (chans s) ch) ->
      exists s', Write p s = Ok ((len p, None), s'))
  /\ (exists trr s1 s2,
        Forall is_recv trr /\ run trr (s, hs) = Ok (s1, hs)
        /\ Write p s1 = Ok ((len p, None), s2)).
Proof.
  intros Hrun Hparse. pose proof (reachable_ok _ _ Hrun) as Hok.
  pose proof (run_ok_registry _ Hok) as Hreg. simpl in Hreg.
  assert (Hall : Forall chan_ok (chans s)).
  { apply (run_chans_ok tr start (s, hs)); [constructor | assumption]. }
  destruct (consumers_make_room s hs Hok Hall)
    as (trr & s1 & Hrecv & Hrun1 & Hreg1 & Hcv1 & Hroom1).
  destruct Hok as (Hcv & _). simpl in Hcv.
  split; [|split; [|split]]; cycle 3.
  { exists trr, s1. unfold Write. rewrite Hcv1, Hcv.
    destruct (ConvertBytesToMessage p) as [m [err|]]; [discriminate|].
    destruct (send_total m s1 Hreg1 Hroom1) as [s2 Hs]. exists s2.
    rewrite Hs. simpl. auto. }
  - intros msg. unfold Write. rewrite Hcv.
    destruct (ConvertBytesToMessage p) as [m [err|]]; [discriminate|].
    pose proof (send_no_panic m s msg Hreg).
    destruct (send m s); simpl; congruence.
  - intros n e s' Hw. apply Write_Ok in Hw. rewrite Hcv in Hw.
    destruct (ConvertBytesToMessage p) as [m [err|]]; [discriminate|].
    now destruct Hw as (-> & -> & _).
  - intros Hroom. unfold Write. rewrite Hcv.
    destruct (ConvertBytesToMessage p) as [m [err|]]; [discriminate|].
    destruct (send_total m s Hreg Hroom) as [s' ->]. simpl. eauto.
Qed.

Lemma C5_write_returns_input_length_witness :
  exists s', Write rec1 (after [OpListen "bcdfgh"; OpWrite rec2; OpListen "jklmnp"]).1
             = Ok ((len rec1, None), s').
Proof.
  refine (proj1 (proj2 (proj2 (C5_write_returns_input_length
            [OpListen "bcdfgh"; OpWrite rec2; OpListen "jklmnp"]
            (after [OpListen "bcdfgh"; OpWrite rec2; OpListen "jklmnp"]).1
            (after [OpListen "bcdfgh"; OpWrite rec2; OpListen "jklmnp"]).2
            rec1 _ _))) _).
  - reflexivity.
  - vm_compute. reflexivity.
  - intros id ch H%elem_of_map_to_list. vm_compute in H.
    apply elem_of_cons in H as [[= _ ->]|H];
      [|apply elem_of_cons in H as [[= _ ->]|H]; [|now apply elem_of_nil in H]];
      eexists; (split; [reflexivity | simpl; lia]).
Defined.

(** C7: in every state a run reaches, [Close] returns a nil error, leaves
    the map empty and every channel that was in it closed; a [Listen] after
    it returns, and the map then holds that one entry, with a channel that
    did not exist before, open and empty, the other channels untouched. *)
Theorem C7_close_then_listen (tr : list op) (s : State) (hs : list ListenCancelFunc) :
  run tr start = Ok (s, hs) ->
  exists s',
    Close s = Ok (None, s')
    /\ listeners (sink s') = ∅
    /\ (forall id ch, listeners (sink s) !! id = Some ch -> is_closed (chans s') ch)
    /\ forall id,
         let ch := (Listen id s').1.1 in
         let s'' := (Listen id s').2 in
         listeners (sink s'') = {[ id := ch ]}
         /\ chans s' !! ch = None
         /\ chans s'' !! ch = Some (make_chan 1000)
         /\ (forall ch', ch' <> ch -> chans s'' !! ch' = chans s' !! ch')
         /\ registry_ok s''.
Proof.
  intros Hrun. pose proof (reachable_ok _ _ Hrun) as Hok.
  destruct (Close_total s (run_ok_registry _ Hok)) as [s' Hc].
  exists s'. split; [assumption|].
  pose proof (Close_run_ok _ _ _ _ Hok Hc) as Hok'.
  apply Close_effect in Hc as (_ & Hemp & _ & _ & Hin & _).
  split; [assumption|]. split; [intros id ch H; now apply (Hin id)|].
  intros id. simpl. split; [now rewrite Hemp|]. split; [|split; [|split]].
  - apply lookup_ge_None. lia.
  - now apply list_lookup_middle.
  - intros ch' Hne. destruct (decide (ch' < length (chans s'))%nat) as [Hlt|Hge].
    + now apply lookup_app_l.
    + rewrite !lookup_ge_None_2; [reflexivity | lia |].
      rewrite length_app. simpl. lia.
  - apply (run_ok_registry _ (Listen_run_ok id s' hs Hok')).
Qed.

Lemma C7_close_then_listen_witness :
  exists s',
    Close (after [OpListen "bcdfgh"; OpListen "jklmnp"; OpWrite rec1]).1 = Ok (None, s')
    /\ listeners (sink s') = ∅
    /\ is_closed (chans s') 0 /\ is_closed (chans s') 1
    /\ listeners (sink (Listen "bcdfgh" s').2) = {[ "bcdfgh" := 2%nat ]}.
Proof.
  destruct (C7_close_then_listen
              [OpListen "bcdfgh"; OpListen "jklmnp"; OpWrite rec1]
              (after [OpListen "bcdfgh"; OpListen "jklmnp"; OpWrite rec1]).1
              (after [OpListen "bcdfgh"; OpListen "jklmnp"; OpWrite rec1]).2)
    as (s' & Hc & Hemp & Hcl & Hl).
  - reflexivity.
  - exists s'. split; [assumption|]. split; [assumption|].
    split; [apply (Hcl "bcdfgh"); vm_compute; reflexivity|].
    split; [apply (Hcl "jklmnp"); vm_compute; reflexivity|].
    destruct (Hl "bcdfgh") as (Hmap & _). rewrite Hmap. f_equal.
    apply Close_effect in Hc as (_ & _ & _ & Hlen & _). simpl. rewrite Hlen.
    vm_compute. reflexivity.
Defined.

(** C9: the closure [Listen] returned closes the queue and deletes the
    identity on its first call; a second call, at once or after any other
    calls on the sink, panics with "close of closed channel". *)
Theorem C9_cancel_not_idempotent (id : string) (s : State) :
  let ch := (Listen id s).1.1 in
  let cancelFn := (Listen id s).1.2 in
  exists s2,
    cancel cancelFn (Listen id s).2 = Ok s2
    /\ is_closed (chans s2) ch
    /\ listeners (sink s2) !! id = None
    /\ cancel cancelFn s2 = Panic "close of closed channel"
    /\ forall tr hs r3,
         run tr (s2, hs) = Ok r3 ->
         cancel cancelFn r3.1 = Panic "close of closed channel".
Proof.
  simpl. unfold cancel at 1. simpl.
  assert (Hopen : is_open (chans s ++ [make_chan 1000]) (length (chans s))).
  { unfold is_open. now rewrite list_lookup_middle. }
  destruct (chan_close_open _ _ Hopen) as [h1 Hc]. rewrite Hc. simpl.
  eexists. split; [reflexivity|]. simpl.
  apply chan_close_effect in Hc as (_ & _ & Hclosed & _).
  split; [assumption|]. split; [apply lookup_delete_eq|].
  assert (Hagain : forall s3, is_closed (chans s3) (length (chans s)) ->
                   cancel (mkCancel (length (chans s)) id) s3
                   = Panic "close of closed channel").
  { intros s3 H3. unfold cancel. simpl. now rewrite (chan_close_closed _ _ H3). }
  split; [now apply Hagain|].
  intros tr hs r3 Hrun. apply Hagain.
  now apply (run_closed tr _ r3 _ Hrun).
Qed.

Lemma C9_cancel_not_idempotent_witness :
  cancel (mkCancel 0 "bcdfgh") (after [OpListen "bcdfgh"; OpCancel 0; OpListen "jklmnp";
                                       OpWrite rec1; OpClose]).1
  = Panic "close of closed channel".
Proof.
  destruct (C9_cancel_not_idempotent "bcdfgh" start.1) as (s2 & Hc & _ & _ & _ & Hlater).
  apply (Hlater [OpListen "jklmnp"; OpWrite rec1; OpClose] [mkCancel 0 "bcdfgh"]).
  injection Hc as <-. reflexivity.
Defined.

(** C6 as worded fails: a second subscriber draws the identity of the
    first, which was never cancelled, and the message written next reaches
    the second queue only. *)
Lemma C6_counterexample :
  (exists r2,
     run [OpListen "bcdfgh"; OpWrite rec1]
         ((Listen "bcdfgh" start.1).2, [(Listen "bcdfgh" start.1).1.2]) = Ok r2
     /\ sent_on (chans r2.1) 0 = Some []
     /\ sent_on (chans r2.1) 1 = Some [msg1])
  /\ ingested [OpListen "bcdfgh"; OpWrite rec1] = [msg1]
  /\ rand_String_6 "bcdfgh" = true
  /\ ~ queue_gets_every_later_message.
Proof.
  assert (Hrun : exists r2,
     run [OpListen "bcdfgh"; OpWrite rec1]
         ((Listen "bcdfgh" start.1).2, [(Listen "bcdfgh" start.1).1.2]) = Ok r2
     /\ sent_on (chans r2.1) 0 = Some []
     /\ sent_on (chans r2.1) 1 = Some [msg1]).
  { eexists. split; [reflexivity|]. split; vm_compute; reflexivity. }
  split; [exact Hrun|]. split; [vm_compute; reflexivity|]. split; [reflexivity|].
  intros Hstated. destruct Hrun as (r2 & Hrun & Hsent0 & _).
  specialize (Hstated [] start.1 [] "bcdfgh" [OpListen "bcdfgh"; OpWrite rec1] r2
                     eq_refl Hrun).
  simpl in Hstated. rewrite Hsent0 in Hstated. vm_compute in Hstated. discriminate.
Qed.

(** C6 (amended): a subscriber's queue is a channel that did not exist
    before its [Listen] and starts empty, so it holds nothing broadcast
    earlier.  After any run of calls it has received, in order, the messages
    ingested by a first part of that run, and nothing else; it has received
    all of them when its entry was in the map at each call (no cancel, no
    shutdown, no later subscriber drawing its identity). *)
Theorem C6_queue_order_while_registered
        (tr0 : list op) (s0 : State) (hs0 : list ListenCancelFunc) (id : string) :
  run tr0 start = Ok (s0, hs0) ->
  let ch := (Listen id s0).1.1 in
  let r1 := ((Listen id s0).2, hs0 ++ [(Listen id s0).1.2]) in
  chans s0 !! ch = None
  /\ chans r1.1 !! ch = Some (make_chan 1000)
  /\ forall (tr : list op) (r2 : Run),
       run tr r1 = Ok r2 ->
       (exists n, sent_on (chans r2.1) ch = Some (ingested (take n tr)))
       /\ (stays_registered id ch tr r1 = true ->
           sent_on (chans r2.1) ch = Some (ingested tr)).
Proof.
  intros Hrun ch r1. pose proof (reachable_ok _ _ Hrun) as Hok.
  assert (Hnew : chans r1.1 !! ch = Some (make_chan 1000)).
  { subst ch r1. simpl. now apply list_lookup_middle. }
  split; [subst ch; simpl; apply lookup_ge_None; lia|]. split; [exact Hnew|].
  intros tr r2 Hrun2.
  assert (Hsent : sent_on (chans r1.1) ch = Some []).
  { unfold sent_on. now rewrite Hnew. }
  destruct (run_sent ch tr r1 r2 [] (Listen_run_ok id s0 hs0 Hok) Hrun2 Hsent)
    as [Hpre Hall].
  split; [exact Hpre | apply Hall].
Qed.

Lemma C6_queue_order_while_registered_witness :
  sent_on (chans (after [OpListen "bcdfgh"; OpWrite rec2; OpListen "jklmnp";
                         OpWrite rec1; OpRecv 1; OpWrite rec2; OpCancel 0]).1) 1
  = Some [msg1; msg2].
Proof.
  destruct (C6_queue_order_while_registered
              [OpListen "bcdfgh"; OpWrite rec2]
              (after [OpListen "bcdfgh"; OpWrite rec2]).1
              (after [OpListen "bcdfgh"; OpWrite rec2]).2
              "jklmnp") as (_ & _ & Hq).
  - reflexivity.
  - destruct (Hq [OpWrite rec1; OpRecv 1; OpWrite rec2; OpCancel 0]
                 (after [OpListen "bcdfgh"; OpWrite rec2; OpListen "jklmnp";
                         OpWrite rec1; OpRecv 1; OpWrite rec2; OpCancel 0]))
      as [_ Hall].
    + reflexivity.
    + refine (eq_trans (Hall _) _); vm_compute; reflexivity.
Defined.

(** C8 as worded fails: two subscribers drew the same identity; the closure
    of the first closes the first queue and deletes the entry of the second,
    whose queue stays open. *)
Lemma C8_counterexample :
  listeners (sink (after [OpListen "bcdfgh"; OpListen "bcdfgh"]).1) !! "bcdfgh" = Some 1%nat
  /\ (exists r',
        step (OpCancel 0) (after [OpListen "bcdfgh"; OpListen "bcdfgh"]) = Ok r'
        /\ listeners (sink r'.1) !! "bcdfgh" = None
        /\ is_open (chans r'.1) 1 /\ is_closed (chans r'.1) 0)
  /\ rand_String_6 "bcdfgh" = true
  /\ ~ removal_closes_queue.
Proof.
  assert (Hstep : exists r',
        step (OpCancel 0) (after [OpListen "bcdfgh"; OpListen "bcdfgh"]) = Ok r'
        /\ listeners (sink r'.1) !! "bcdfgh" = None
        /\ is_open (chans r'.1) 1 /\ is_closed (chans r'.1) 0).
  { eexists. split; [reflexivity|]. repeat split; vm_compute; reflexivity. }
  split; [vm_compute; reflexivity|]. split; [exact Hstep|]. split; [reflexivity|].
  intros Hstated. destruct Hstep as ([s' hs'] & Hstep & Hgone & Hopen & _).
  assert (Hcl : is_closed (chans s') 1).
  { apply (Hstated [OpListen "bcdfgh"; OpListen "bcdfgh"]
                  (after [OpListen "bcdfgh"; OpListen "bcdfgh"]).1
                  (after [OpListen "bcdfgh"; OpListen "bcdfgh"]).2
                  (OpCancel 0) s' hs' "bcdfgh" 1%nat).
    - reflexivity.
    - exact Hstep.
    - vm_compute. reflexivity.
    - simpl in Hgone. rewrite Hgone. discriminate. }
  unfold is_open, is_closed in *. simpl in Hopen. congruence.
Qed.

(** C8 (amended): in every state a run reaches, every entry of the map has
    an open queue (and no queue has two entries), so a broadcast never sends
    on a closed queue; every call keeps this.  An entry removed by [Close],
    or by the closure that captured that queue and identity, has its queue
    open before the call and closed after it. *)
Theorem C8_registry_invariant (tr : list op) (s : State) (hs : list ListenCancelFunc) :
  run tr start = Ok (s, hs) ->
  registry_ok s
  /\ (forall m msg, send m s <> Panic msg)
  /\ (forall p msg, Write p s <> Panic msg)
  /\ forall (o : op) (s' : State) (hs' : list ListenCancelFunc),
       step o (s, hs) = Ok (s', hs') ->
       registry_ok s'
       /\ forall id ch,
            listeners (sink s) !! id = Some ch ->
            (o = OpClose \/ exists k, o = OpCancel k /\ hs !! k = Some (mkCancel ch id)) ->
            listeners (sink s') !! id = None
            /\ is_open (chans s) ch /\ is_closed (chans s') ch.
Proof.
  intros Hrun. pose proof (reachable_ok _ _ Hrun) as Hok.
  pose proof (run_ok_registry _ Hok) as Hreg. simpl in Hreg.
  split; [exact Hreg|]. split; [intros m msg; now apply send_no_panic|]. split.
  - intros p msg. unfold Write.
    destruct (converter (sink s) p) as [m [err|]]; [discriminate|].
    pose proof (send_no_panic m s msg Hreg). destruct (send m s); simpl; congruence.
  - intros o s' hs' Hstep.
    split; [apply (run_ok_registry _ (step_run_ok _ _ _ Hok Hstep))|].
    intros id ch Hin [->|(k & -> & Hk)]; simpl in Hstep.
    + destruct (Close s) as [[e s1]| |] eqn:Hc; simpl in Hstep; try discriminate.
      injection Hstep as <- <-.
      apply Close_effect in Hc as (_ & Hemp & _ & _ & Hcl & _).
      destruct (Hcl _ _ Hin). rewrite Hemp, lookup_empty. auto.
    + rewrite Hk in Hstep. unfold cancel in Hstep. simpl in Hstep.
      destruct (chan_close (chans s) ch) as [h1| |] eqn:Hc; simpl in Hstep;
        try discriminate.
      injection Hstep as <- <-. simpl.
      apply chan_close_effect in Hc as (_ & Hopen & Hclosed & _).
      split; [apply lookup_delete_eq | auto].
Qed.

Lemma C8_registry_invariant_witness :
  registry_ok (after [OpListen "bcdfgh"; OpListen "jklmnp"; OpWrite rec1]).1
  /\ registry_ok (after [OpListen "bcdfgh"; OpListen "jklmnp"; OpWrite rec1; OpCancel 1]).1
  /\ listeners (sink (after [OpListen "bcdfgh"; OpListen "jklmnp"; OpWrite rec1;
                             OpCancel 1]).1) !! "jklmnp" = None
  /\ is_closed (chans (after [OpListen "bcdfgh"; OpListen "jklmnp"; OpWrite rec1;
                              OpCancel 1]).1) 1.
Proof.
  destruct (C8_registry_invariant
              [OpListen "bcdfgh"; OpListen "jklmnp"; OpWrite rec1]
              (after [OpListen "bcdfgh"; OpListen "jklmnp"; OpWrite rec1]).1
              (after [OpListen "bcdfgh"; OpListen "jklmnp"; OpWrite rec1]).2)
    as (Hreg & _ & _ & Hstep).
  - reflexivity.
  - split; [exact Hreg|].
    destruct (Hstep (OpCancel 1)
                (after [OpListen "bcdfgh"; OpListen "jklmnp"; OpWrite rec1; OpCancel 1]).1
                (after [OpListen "bcdfgh"; OpListen "jklmnp"; OpWrite rec1; OpCancel 1]).2)
      as [Hreg' Hrem].
    + reflexivity.
    + split; [exact Hreg'|].
      destruct (Hrem "jklmnp" 1%nat) as (Hgone & _ & Hcl).
      * vm_compute. reflexivity.
      * right. exists 1%nat. split; [reflexivity | vm_compute; reflexivity].
      * auto.
Defined.

(** * Further properties of the parser *)

Section StringFacts.

Lemma app_cons (a : ascii) (s t : string) : String a s +:+ t = String a (s +:+ t).
Proof. reflexivity. Qed.

Lemma app_empty_r (s : string) : s +:+ EmptyString = s.
Proof. induction s as [|a s IH]; [reflexivity|]. now rewrite app_cons, IH. Qed.

Lemma app_assoc_s (s t u : string) : (s +:+ t) +:+ u = s +:+ (t +:+ u).
Proof. induction s as [|a s IH]; [reflexivity|]. now rewrite !app_cons, IH. Qed.

Lemma rev_app_spec (s acc : string) :
  String.rev_app s acc = String.rev s +:+ acc.
Proof.
  unfold String.rev. revert acc. induction s as [|a s IH]; intros acc; simpl.
  - reflexivity.
  - rewrite (IH (String a acc)), (IH (String a EmptyString)), app_assoc_s.
    reflexivity.
Qed.

Lemma rev_cons (a : ascii) (s : string) :
  String.rev (String a s) = String.rev s +:+ String a EmptyString.
Proof. unfold String.rev at 1. simpl. apply rev_app_spec. Qed.

Lemma rev_snoc (a : ascii) (s : string) :
  String.rev (s +:+ String a EmptyString) = String a (String.rev s).
Proof.
  induction s as [|b s IH]; [reflexivity|].
  rewrite app_cons, !rev_cons, IH. reflexivity.
Qed.

Lemma rev_involutive (s : string) : String.rev (String.rev s) = s.
Proof.
  induction s as [|a s IH]; [reflexivity|].
  now rewrite rev_cons, rev_snoc, IH.
Qed.

(** A string is empty or has a last byte. *)
Lemma snoc_cases (s : string) :
  s = EmptyString \/ exists s' c, s = s' +:+ String c EmptyString.
Proof.
  destruct (String.rev s) as [|c r] eqn:Hr.
  - left. now rewrite <- (rev_involutive s), Hr.
  - right. exists (String.rev r), c.
    now rewrite <- (rev_involutive s), Hr, rev_cons.
Qed.

End StringFacts.

Section TrimFacts.

Lemma ascii_space_low (c : ascii) :
  strings.is_ascii_space c = true -> byte_val c <= 32.
Proof.
  unfold strings.is_ascii_space. simpl.
  rewrite orb_true_iff, andb_true_iff, !Z.leb_le, Z.eqb_eq. lia.
Qed.

Lemma space2_high (a c : ascii) :
  strings.is_space2 a c = true -> 128 <= byte_val c.
Proof.
  unfold strings.is_space2.
  rewrite andb_true_iff, orb_true_iff, !Z.eqb_eq. lia.
Qed.

Lemma space3_high (a b c : ascii) :
  strings.is_space3 a b c = true -> 128 <= byte_val c.
Proof.
  unfold strings.is_space3. simpl.
  rewrite !orb_true_iff, !andb_true_iff, !orb_true_iff, !andb_true_iff,
    !Z.eqb_eq, !Z.leb_le. lia.
Qed.

Lemma ascii_space_not_tail2 (a c : ascii) :
  strings.is_ascii_space c = true -> strings.is_space2 a c = false.
Proof.
  intros Hc%ascii_space_low. destruct (strings.is_space2 a c) eqn:H; [|reflexivity].
  apply space2_high in H. lia.
Qed.

Lemma ascii_space_not_tail3 (a b c : ascii) :
  strings.is_ascii_space c = true -> strings.is_space3 a b c = false.
Proof.
  intros Hc%ascii_space_low. destruct (strings.is_space3 a b c) eqn:H; [|reflexivity].
  apply space3_high in H. lia.
Qed.

(** Appending an ASCII white space byte does not change what is trimmed
    on the left, except that a string of white space only stays empty. *)
Lemma TrimLeft_snoc (c : ascii) (b : string) :
  strings.is_ascii_space c = true ->
  strings.TrimLeft (b +:+ String c EmptyString)
  = match strings.TrimLeft b with
    | EmptyString => EmptyString
    | String x t => String x t +:+ String c EmptyString
    end.
Proof.
  intros Hc.
  assert (H : forall n b, (String.length b <= n)%nat ->
    strings.TrimLeft (b +:+ String c EmptyString)
    = match strings.TrimLeft b with
      | EmptyString => EmptyString
      | String x t => String x t +:+ String c EmptyString
      end); [|now apply (H (String.length b))].
  clear b. induction n as [|n IH]; intros b Hlen.
  - destruct b; simpl in Hlen; [|lia]. simpl. now rewrite Hc.
  - destruct b as [|a1 s1].
    { simpl. now rewrite Hc. }
    rewrite app_cons. simpl in Hlen. cbn [strings.TrimLeft].
    destruct (strings.is_ascii_space a1) eqn:H1; [apply IH; lia|].
    destruct s1 as [|a2 s2].
    { change (EmptyString +:+ String c EmptyString) with (String c EmptyString).
      cbv beta iota. now rewrite (ascii_space_not_tail2 a1 c Hc). }
    rewrite app_cons. simpl in Hlen. cbv beta iota.
    destruct (strings.is_space2 a1 a2) eqn:H2; [apply IH; lia|].
    destruct s2 as [|a3 s3].
    { change (EmptyString +:+ String c EmptyString) with (String c EmptyString).
      cbv beta iota. now rewrite (ascii_space_not_tail3 a1 a2 c Hc). }
    rewrite app_cons. simpl in Hlen. cbv beta iota.
    destruct (strings.is_space3 a1 a2 a3) eqn:H3; [apply IH; lia|].
    reflexivity.
Qed.

Lemma TrimRight_snoc (c : ascii) (x : string) :
  strings.is_ascii_space c = true ->
  strings.TrimRight (x +:+ String c EmptyString) = strings.TrimRight x.
Proof.
  intros Hc. unfold strings.TrimRight. rewrite rev_snoc.
  cbn [strings.TrimLeftRev]. now rewrite Hc.
Qed.

(** What is left of the scan from the right is empty or starts with a byte
    that is no ASCII white space. *)
Lemma TrimLeftRev_head (s : string) :
  match strings.TrimLeftRev s with
  | EmptyString => True
  | String a _ => strings.is_ascii_space a = false
  end.
Proof.
  assert (H : forall n s, (String.length s <= n)%nat ->
    match strings.TrimLeftRev s with
    | EmptyString => True
    | String a _ => strings.is_ascii_space a = false
    end); [|now apply (H (String.length s))].
  clear s. induction n as [|n IH]; intros s Hlen.
  - destruct s; simpl in Hlen; [exact I | lia].
  - destruct s as [|a1 s1]; [exact I|]. simpl in Hlen. cbn [strings.TrimLeftRev].
    destruct (strings.is_ascii_space a1) eqn:H1; [apply IH; lia|].
    destruct s1 as [|a2 s2]; [exact H1|]. simpl in Hlen.
    destruct (strings.is_space2 a2 a1); [apply IH; lia|].
    destruct s2 as [|a3 s3]; [exact H1|]. simpl in Hlen.
    destruct (strings.is_space3 a3 a2 a1); [apply IH; lia | exact H1].
Qed.

(** A trimmed string is empty or ends with a byte that is no ASCII white
    space; in particular it does not end with the separator. *)
Lemma TrimSpace_last (b : string) :
  strings.TrimSpace b = EmptyString
  \/ exists t c, strings.TrimSpace b = t +:+ String c EmptyString
                 /\ strings.is_ascii_space c = false.
Proof.
  unfold strings.TrimSpace, strings.TrimRight.
  pose proof (TrimLeftRev_head (String.rev (strings.TrimLeft b))) as H.
  destruct (strings.TrimLeftRev _) as [|a r]; [now left|].
  right. exists (String.rev r), a. now rewrite rev_cons.
Qed.

End TrimFacts.

Section SplitJoin.

Variable sep : ascii.

(** Joining what [Split] returns gives the string back. *)
Lemma join_Split (s : string) : join sep (strings.Split s sep) = s.
Proof.
  induction s as [|c s IH]; [reflexivity|]. cbn [strings.Split].
  pose proof (Split_not_nil sep s) as Hnn.
  destruct (Ascii.eqb c sep) eqn:Hc.
  - apply Ascii.eqb_eq in Hc as ->.
    destruct (strings.Split s sep) as [|p ps]; [congruence|].
    cbn [join]. cbn [join] in IH. now rewrite IH.
  - destruct (strings.Split s sep) as [|p ps]; [congruence|].
    cbn [join] in *. destruct ps; [now rewrite IH|].
    rewrite app_cons. now rewrite IH.
Qed.

(** No part holds the separator. *)
Lemma Split_parts_free (s : string) :
  Forall (fun p => contains p sep = false) (strings.Split s sep).
Proof.
  induction s as [|c s IH]; cbn [strings.Split].
  - now constructor.
  - destruct (Ascii.eqb c sep) eqn:Hc.
    + constructor; [reflexivity | assumption].
    + destruct (strings.Split s sep) as [|p ps]; [repeat constructor; simpl; now rewrite Hc|].
      apply Forall_cons in IH as [Hp Hps].
      constructor; [simpl; now rewrite Hc, Hp | assumption].
Qed.

(** The last part of a string that ends with another byte than the
    separator is not empty. *)
Lemma Split_last_part (t : string) (c : ascii) :
  Ascii.eqb c sep = false ->
  last (strings.Split (t +:+ String c EmptyString) sep) <> Some EmptyString.
Proof.
  intros Hc. induction t as [|a t IH].
  - change (EmptyString +:+ String c EmptyString) with (String c EmptyString).
    cbn [strings.Split]. rewrite Hc. simpl. discriminate.
  - rewrite app_cons. cbn [strings.Split].
    pose proof (Split_not_nil sep (t +:+ String c EmptyString)) as Hnn.
    destruct (strings.Split (t +:+ String c EmptyString) sep) as [|p ps];
      [congruence|].
    destruct (Ascii.eqb a sep).
    + now rewrite last_cons_cons.
    + destruct ps as [|p2 ps]; [simpl; discriminate|].
      now rewrite last_cons_cons in *.
Qed.

End SplitJoin.

(** What a successful parse says about the record: the trimmed record has
    4 or 5 parts, the first is a timestamp, the others are the fields. *)
Lemma Convert_success_inv (b : string) (m : Message) :
  ConvertBytesToMessage b = (m, None) ->
  exists ts t,
    time.Parse ts = inr t
    /\ ((exists f1 f2 f3,
           strings.Split (strings.TrimSpace b) tab = [ts; f1; f2; f3]
           /\ m = mkMessage (time.Unix t) f1 f2 f3 EmptyString)
        \/ (exists f1 f2 f3 f4,
              strings.Split (strings.TrimSpace b) tab = [ts; f1; f2; f3; f4]
              /\ m = mkMessage (time.Unix t) f1 f2 f3 f4)).
Proof.
  unfold ConvertBytesToMessage.
  destruct (strings.Split (strings.TrimSpace b) tab)
    as [|p0 [|p1 [|p2 [|p3 [|p4 [|p5 rest]]]]]]; try (simpl; discriminate).
  - simpl. unfold index. simpl.
    destruct (time.Parse p0) as [e|t] eqn:Ht; [discriminate|].
    intros [= <-]. exists p0, t. split; [assumption|]. left. eauto.
  - simpl. unfold index. simpl.
    destruct (time.Parse p0) as [e|t] eqn:Ht; [discriminate|].
    intros [= <-]. exists p0, t. split; [assumption|]. right.
    exists p1, p2, p3, p4. auto.
  - replace (5 <? Z.of_nat (length (p0 :: p1 :: p2 :: p3 :: p4 :: p5 :: rest)))
      with true by (symmetry; apply Z.ltb_lt; simpl length; lia).
    rewrite orb_true_r. discriminate.
Qed.

(** The last field of an accepted record is not empty. *)
Lemma Convert_last_field (b : string) (parts : list string) (f : string) :
  strings.Split (strings.TrimSpace b) tab = parts ->
  (2 <= length parts)%nat -> last parts = Some f -> f <> EmptyString.
Proof.
  intros Hparts Hlen Hlast ->.
  destruct (TrimSpace_last b) as [He|(t & c & Ht & Hc)].
  - rewrite He in Hparts. subst parts. simpl in Hlen. lia.
  - rewrite Ht in Hparts. subst parts.
    apply (Split_last_part tab t c); [|assumption].
    destruct (Ascii.eqb c tab) eqn:E; [|reflexivity].
    apply Ascii.eqb_eq in E as ->. discriminate.
Qed.

Section TimeFacts.

Lemma digit_range (a : ascii) :
  time.isDigitB a = true -> 0 <= time.digit a <= 9.
Proof.
  unfold time.isDigitB, time.digit. rewrite andb_true_iff, !Z.leb_le. lia.
Qed.

Lemma getnum_range (s : string) (fixed : bool) (n : Z) (rest : string) :
  time.getnum s fixed = inr (n, rest) -> 0 <= n <= 99.
Proof.
  unfold time.getnum. destruct s as [|a s1]; [discriminate|].
  destruct (time.isDigitB a) eqn:Ha; [|discriminate].
  apply digit_range in Ha.
  destruct s1 as [|b s2].
  - destruct fixed; [discriminate|]. intros [= <- _]. lia.
  - destruct (time.isDigitB b) eqn:Hb.
    + apply digit_range in Hb. intros [= <- _]. lia.
    + destruct fixed; [discriminate|]. intros [= <- _]. lia.
Qed.

Lemma longYear_range (s : string) (y : Z) (rest : string) :
  time.longYear s = inr (y, rest) -> 0 <= y <= 9999.
Proof.
  unfold time.longYear.
  destruct s as [|a [|b [|c [|d r]]]]; try discriminate.
  destruct (time.isDigitB a) eqn:Ha; [|discriminate].
  destruct (time.isDigitB b) eqn:Hb; [|discriminate].
  destruct (time.isDigitB c) eqn:Hc; [|discriminate].
  destruct (time.isDigitB d) eqn:Hd; [|discriminate].
  apply digit_range in Ha, Hb, Hc, Hd. simpl. intros [= <- _]. lia.
Qed.

Lemma zone_range (s : string) (off : Z) (rest : string) :
  time.zone s = inr (off, rest) -> -90000 <= off <= 90000.
Proof.
  unfold time.zone.
  destruct s as [|sg s]; [discriminate|].
  destruct (Ascii.eqb sg "Z") eqn:Hz.
  { apply Ascii.eqb_eq in Hz as ->. intros [= <- _]. lia. }
  assert (Hgen :
    match s with
    | String h1 (String h2 (String m1 (String m2 rest0))) =>
        match time.getnum (String h1 (String h2 EmptyString)) true with
        | inl e => inl e
        | inr (hr, _) =>
            match time.getnum (String m1 (String m2 EmptyString)) true with
            | inl e =>
                if 24 <? hr then inl (time.errRange "time zone offset hour") else inl e
            | inr (mm, _) =>
                if 60 <? mm then inl (time.errRange "time zone offset minute")
                else if 24 <? hr then inl (time.errRange "time zone offset hour")
                else if Ascii.eqb sg "+" then inr ((hr * 60 + mm) * 60, rest0)
                else if Ascii.eqb sg "-" then inr (- ((hr * 60 + mm) * 60), rest0)
                else inl time.errBad
            end
        end
    | _ => inl time.errBad
    end = inr (off, rest) -> -90000 <= off <= 90000).
  { destruct s as [|h1 [|h2 [|m1 [|m2 r]]]]; try discriminate.
    destruct (time.getnum (String h1 (String h2 EmptyString)) true)
      as [e|[hr x]] eqn:Hh; [discriminate|].
    apply getnum_range in Hh.
    destruct (time.getnum (String m1 (String m2 EmptyString)) true)
      as [e|[mm y]] eqn:Hm.
    { destruct (24 <? hr); discriminate. }
    apply getnum_range in Hm.
    destruct (60 <? mm) eqn:H60; [discriminate|].
    destruct (24 <? hr) eqn:H24; [discriminate|].
    apply Z.ltb_ge in H60, H24.
    destruct (Ascii.eqb sg "+"); [intros [= <- _]; lia|].
    destruct (Ascii.eqb sg "-"); [intros [= <- _]; lia | discriminate]. }
  intros H. apply Hgen. rewrite <- H.
  destruct sg as [[] [] [] [] [] [] [] []]; try reflexivity.
  discriminate.
Qed.

Lemma daysBefore_range (month : Z) : 0 <= time.daysBefore month <= 334.
Proof.
  unfold time.daysBefore.
  destruct month as [|p|p]; try lia.
  do 4 (destruct p as [p|p|]; try lia).
Qed.

Lemma daysIn_range (month year : Z) : time.daysIn month year <= 31.
Proof.
  unfold time.daysIn.
  destruct (month =? 2); [destruct (time.isLeap year); lia|].
  destruct ((month =? 4) || (month =? 6) || (month =? 9) || (month =? 11)); lia.
Qed.

(** The seconds of an accepted timestamp: between the first second of the
    year 0 and the last of the year 9999, moved by a zone offset of at most
    25 hours. *)
Lemma Parse_range (value : string) (t : time.Time) :
  time.Parse value = inr t ->
  -62167309200 <= time.Unix t <= 253402477199.
Proof.
  unfold time.Parse, time.bind, time.check.
  destruct (time.longYear value) as [e|[year v0]] eqn:Hy; [discriminate|].
  destruct (time.skip v0 "-") as [e|v1]; [discriminate|].
  destruct (time.getnum v1 true) as [e|[month v2]] eqn:Hmo; [discriminate|].
  destruct ((0 <? month) && (month <=? 12)) eqn:Hmr; [|discriminate].
  destruct (time.skip v2 "-") as [e|v3]; [discriminate|].
  destruct (time.getnum v3 true) as [e|[day v4]] eqn:Hd; [discriminate|].
  destruct (time.skip v4 "T") as [e|v5]; [discriminate|].
  destruct (time.getnum v5 false) as [e|[hour v6]] eqn:Hh; [discriminate|].
  destruct (hour <? 24) eqn:Hhr; [|discriminate].
  destruct (time.skip v6 ":") as [e|v7]; [discriminate|].
  destruct (time.getnum v7 true) as [e|[min v8]] eqn:Hmi; [discriminate|].
  destruct (min <? 60) eqn:Hmir; [|discriminate].
  destruct (time.skip v8 ":") as [e|v9]; [discriminate|].
  destruct (time.getnum v9 true) as [e|[sec v10]] eqn:Hs; [discriminate|].
  destruct (sec <? 60) eqn:Hsr; [|discriminate].
  destruct (time.fracSecond v10) as [e|[nsec v11]]; [discriminate|].
  destruct (time.zone v11) as [e|[offset v12]] eqn:Hz; [discriminate|].
  destruct (String.eqb v12 EmptyString); [|discriminate].
  destruct ((1 <=? day) && (day <=? time.daysIn month year)) eqn:Hdr; [|discriminate].
  intros [= <-]. unfold time.Unix, time.Date, time.daysSinceEpoch. simpl.
  apply longYear_range in Hy. apply getnum_range in Hh, Hmi, Hs.
  apply zone_range in Hz.
  apply andb_true_iff in Hmr as [_ _].
  apply andb_true_iff in Hdr as [Hd1%Z.leb_le Hd2%Z.leb_le].
  apply Z.ltb_lt in Hhr, Hmir, Hsr.
  pose proof (daysIn_range month year).
  pose proof (daysBefore_range month).
  assert (0 <= (if time.isLeap year && (3 <=? month) then 1 else 0) <= 1)
    by (destruct (time.isLeap year && (3 <=? month)); lia).
  generalize dependent (time.daysBefore month).
  generalize dependent (if time.isLeap year && (3 <=? month) then 1 else 0).
  intros leap Hleap db Hdb.
  Z.div_mod_to_equations. lia.
Qed.

End TimeFacts.

(** X1: a record that, once trimmed, is four separator-free fields with a
    timestamp [time.Parse] accepts first, parses to the message with the
    Unix seconds of the timestamp, the other three fields as level, location
    and text, and no payload. *)
Theorem X1_four_fields_parse (b f0 f1 f2 f3 : string) (t : time.Time) :
  strings.TrimSpace b
  = f0 +:+ String tab (f1 +:+ String tab (f2 +:+ String tab f3)) ->
  contains f0 tab = false -> contains f1 tab = false ->
  contains f2 tab = false -> contains f3 tab = false ->
  time.Parse f0 = inr t ->
  ConvertBytesToMessage b = (mkMessage (time.Unix t) f1 f2 f3 EmptyString, None).
Proof.
  intros Hb H0 H1 H2 H3 Ht. unfold ConvertBytesToMessage.
  rewrite Hb, !Split_field, (Split_last tab f3 H3) by assumption.
  simpl. unfold index at 1. simpl. rewrite Ht. reflexivity.
Qed.

Lemma X1_four_fields_parse_witness :
  ConvertBytesToMessage (" " +:+ rec1 +:+ String "010" EmptyString) = (msg1, None).
Proof.
  apply (X1_four_fields_parse (" " +:+ rec1 +:+ String "010" EmptyString)
           "2020-05-01T10:00:00.000Z" "error" "main.go:42" "something failed"
           (time.mkTime 1588327200 0)); vm_compute; reflexivity.
Defined.

(** X2: an ASCII white space byte (space, tab, newline, ...) before or after
    a record does not change what the parser returns; so the newline a
    logger ends a line with is ignored, and so is a separator after the last
    field. *)
Theorem X2_surrounding_space_ignored (c : ascii) (b : string) :
  strings.is_ascii_space c = true ->
  ConvertBytesToMessage (String c b) = ConvertBytesToMessage b
  /\ ConvertBytesToMessage (b +:+ String c EmptyString) = ConvertBytesToMessage b.
Proof.
  intros Hc.
  assert (H1 : strings.TrimSpace (String c b) = strings.TrimSpace b).
  { unfold strings.TrimSpace. cbn [strings.TrimLeft]. now rewrite Hc. }
  assert (H2 : strings.TrimSpace (b +:+ String c EmptyString) = strings.TrimSpace b).
  { unfold strings.TrimSpace. rewrite (TrimLeft_snoc c b Hc).
    destruct (strings.TrimLeft b) as [|x t]; [reflexivity|].
    now apply TrimRight_snoc. }
  unfold ConvertBytesToMessage. now rewrite H1, H2.
Qed.

Lemma X2_surrounding_space_ignored_witness :
  ConvertBytesToMessage (String "010" rec2) = ConvertBytesToMessage rec2
  /\ ConvertBytesToMessage (rec2 +:+ String "010" EmptyString)
     = ConvertBytesToMessage rec2.
Proof. apply (X2_surrounding_space_ignored "010" rec2). reflexivity. Defined.

(** X3: nothing of an accepted record is lost but the white space around
    it: the trimmed record is the timestamp and the fields of the message,
    joined by the separator, and no field holds a separator. *)
Theorem X3_record_rebuilt_from_message (b : string) (m : Message) :
  ConvertBytesToMessage b = (m, None) ->
  exists ts t,
    time.Parse ts = inr t /\ Date m = time.Unix t
    /\ strings.TrimSpace b = join tab (fields_of ts m)
    /\ Forall (fun f => contains f tab = false) (fields_of ts m).
Proof.
  intros (ts & t & Ht & Hcases)%Convert_success_inv.
  exists ts, t. split; [assumption|].
  pose proof (join_Split tab (strings.TrimSpace b)) as Hjoin.
  pose proof (Split_parts_free tab (strings.TrimSpace b)) as Hfree.
  destruct Hcases as [(f1 & f2 & f3 & Hparts & ->)|(f1 & f2 & f3 & f4 & Hparts & ->)];
    rewrite Hparts in Hjoin, Hfree; unfold fields_of; cbn [JSON LogLevel Location Text Date].
  - simpl. auto.
  - assert (Hf4 : f4 <> EmptyString).
    { apply (Convert_last_field b _ f4 Hparts); [simpl; lia | reflexivity]. }
    apply String.eqb_neq in Hf4. rewrite Hf4. simpl. auto.
Qed.

Lemma X3_record_rebuilt_from_message_witness :
  exists ts t,
    time.Parse ts = inr t /\ Date msg2 = time.Unix t
    /\ strings.TrimSpace (rec2 +:+ String "010" EmptyString) = join tab (fields_of ts msg2)
    /\ Forall (fun f => contains f tab = false) (fields_of ts msg2).
Proof.
  apply (X3_record_rebuilt_from_message (rec2 +:+ String "010" EmptyString) msg2).
  vm_compute. reflexivity.
Defined.

(** X4: in the message of an accepted record the payload is empty exactly
    when the record had 4 fields; the last field of the record is never
    empty, so a record of 4 fields has a text and an empty payload cannot be
    written. *)
Theorem X4_payload_empty_iff_four_fields (b : string) (m : Message) :
  ConvertBytesToMessage b = (m, None) ->
  (JSON m = EmptyString <-> length (strings.Split (strings.TrimSpace b) tab) = 4%nat)
  /\ (JSON m = EmptyString -> Text m <> EmptyString).
Proof.
  intros (ts & t & Ht & Hcases)%Convert_success_inv.
  destruct Hcases as [(f1 & f2 & f3 & Hparts & ->)|(f1 & f2 & f3 & f4 & Hparts & ->)];
    rewrite Hparts; simpl.
  - split; [split; reflexivity|]. intros _.
    apply (Convert_last_field b _ f3 Hparts); [simpl; lia | reflexivity].
  - assert (Hf4 : f4 <> EmptyString).
    { apply (Convert_last_field b _ f4 Hparts); [simpl; lia | reflexivity]. }
    split; [split; [contradiction | discriminate] | contradiction].
Qed.

Lemma X4_payload_empty_iff_four_fields_witness :
  (JSON msg1 = EmptyString
   <-> length (strings.Split (strings.TrimSpace (rec1 +:+ String tab EmptyString)) tab)
       = 4%nat)
  /\ (JSON msg1 = EmptyString -> Text msg1 <> EmptyString).
Proof.
  apply (X4_payload_empty_iff_four_fields (rec1 +:+ String tab EmptyString) msg1).
  vm_compute. reflexivity.
Defined.

(** X5: the [Date] of an accepted record lies between the first second of
    the year 0 and the last second of the year 9999, moved by at most the
    25 hours of a zone offset; it is far inside the range of [int64], so
    [t.Unix()] never wraps. *)
Theorem X5_date_within_int64 (b : string) (m : Message) :
  ConvertBytesToMessage b = (m, None) ->
  -62167309200 <= Date m <= 253402477199
  /\ int64_min <= Date m <= int64_max.
Proof.
  intros (ts & t & Ht & Hcases)%Convert_success_inv.
  apply Parse_range in Ht.
  assert (Hd : Date m = time.Unix t).
  { destruct Hcases as [(? & ? & ? & _ & ->)|(? & ? & ? & ? & _ & ->)]; reflexivity. }
  rewrite Hd. unfold int64_min, int64_max. lia.
Qed.

Lemma X5_date_within_int64_witness :
  -62167309200 <= Date msg2 <= 253402477199
  /\ int64_min <= Date msg2 <= int64_max.
Proof. apply (X5_date_within_int64 rec2 msg2). vm_compute. reflexivity. Defined.

(** * Further properties of the registry *)

Lemma state_eta (s : State) :
  mkState (mkSink (listeners (sink s)) (converter (sink s))) (chans s) = s.
Proof. now destruct s as [[ls cv] h]. Qed.

Lemma returns_after (tr : list op) :
  returns tr = true -> run tr start = Ok ((after tr).1, (after tr).2).
Proof.
  unfold returns, after. destruct (run tr start) as [[s hs]| |]; simpl;
    [reflexivity | discriminate..].
Qed.

Lemma has_roomb_spec (h : list chan) (ch : nat) :
  has_room h ch <-> has_roomb h ch = true.
Proof.
  unfold has_room, has_roomb. destruct (h !! ch) as [c|].
  - rewrite Nat.ltb_lt. split; [intros (c' & [= <-] & H); exact H | eauto].
  - split; [intros (c' & [=] & _) | discriminate].
Qed.

Lemma has_room_dec (h : list chan) (ch : nat) : {has_room h ch} + {~ has_room h ch}.
Proof.
  unfold has_room. destruct (h !! ch) as [c|].
  - destruct (decide (length (buf c) < cap c)%nat) as [Hlt|Hge].
    + left. eauto.
    + right. intros (c' & [= <-] & Hlt). contradiction.
  - right. intros (c' & [=] & _).
Qed.

(** A broadcast that returns found room in every queue of the loop. *)
Lemma send_all_Ok_room (l : list (string * nat)) (m : Message) (h h' : list chan) :
  send_all l m h = Ok h' -> NoDup (l.*2) ->
  forall ch, ch ∈ l.*2 -> has_room h ch.
Proof.
  revert h. induction l as [|[k a] l IH]; intros h;
    cbn [send_all]; rewrite ?fmap_cons; cbn [fst snd].
  - intros _ _ ch Hin. now apply elem_of_nil in Hin.
  - intros Hrun [Hnotin Hnd]%NoDup_cons ch Hin.
    destruct (chan_send h a m) as [h1| |] eqn:Hs; simpl in Hrun; try discriminate.
    apply chan_send_Ok in Hs as (c & Hc & _ & Hroom & ->).
    apply elem_of_cons in Hin as [->|Hin]; [exists c; auto|].
    destruct (IH _ Hrun Hnd ch Hin) as (c' & Hc' & Hr').
    assert (ch <> a) by (intros ->; contradiction).
    rewrite (update_lookup h a c _ ch Hc), decide_False in Hc' by assumption.
    exists c'. auto.
Qed.

(** A broadcast over open queues that blocks met a full queue. *)
Lemma send_all_Blocked (l : list (string * nat)) (m : Message) (h : list chan) :
  NoDup (l.*2) -> (forall ch, ch ∈ l.*2 -> is_open h ch) ->
  send_all l m h = Blocked ->
  exists ch, ch ∈ l.*2 /\ ~ has_room h ch.
Proof.
  revert h. induction l as [|[k a] l IH]; intros h;
    cbn [send_all]; rewrite ?fmap_cons; cbn [fst snd]; [discriminate|].
  intros [Hnotin Hnd]%NoDup_cons Hopen Hrun.
  destruct (has_room_dec h a) as [Hroom|Hfull];
    [|exists a; split; [apply list_elem_of_here | assumption]].
  destruct Hroom as (c & Hc & Hroom).
  pose proof (Hopen a (list_elem_of_here _ _)) as Ha. unfold is_open in Ha.
  rewrite Hc in Ha. simpl in Ha. injection Ha as Ha.
  unfold chan_send in Hrun. rewrite Hc, Ha in Hrun.
  apply Nat.ltb_lt in Hroom. rewrite Hroom in Hrun. simpl in Hrun.
  assert (Hopen1 : forall ch, ch ∈ l.*2 -> is_open (<[a := push m c]> h) ch).
  { intros ch Hch. unfold is_open.
    rewrite (update_same_field closed h a c); [|assumption|reflexivity].
    apply Hopen. now apply list_elem_of_further. }
  destruct (IH _ Hnd Hopen1 Hrun) as (ch & Hin & Hno).
  - exists ch. split; [now apply list_elem_of_further|].
    intros (c' & Hc' & Hr'). apply Hno.
    assert (ch <> a) by (intros ->; contradiction).
    exists c'. now rewrite (update_lookup h a c _ ch Hc), decide_False.
Qed.

Lemma close_all_bufs (l : list (string * nat)) (ls ls' : gmap string nat)
      (h h' : list chan) :
  close_all l ls h = Ok (ls', h') ->
  forall ch, buf <$> h' !! ch = buf <$> h !! ch.
Proof.
  revert ls h. induction l as [|[k a] l IH]; intros ls h; cbn [close_all].
  - now intros [= _ <-].
  - destruct (chan_close h a) as [h1| |] eqn:Hs; simpl; try discriminate.
    intros Hrun ch. rewrite (IH _ _ Hrun).
    now apply chan_close_effect in Hs as (_ & _ & _ & _ & _ & Hbuf).
Qed.

(** X6: a [Write] that returns for a record that parses has appended the
    parsed message, once, at the end of the queue of every entry of the map,
    and has changed neither the map nor any other channel. *)
Theorem X6_write_fans_out
        (tr : list op) (s s' : State) (hs : list ListenCancelFunc)
        (p : string) (m : Message) (n : Z) (e : option error) :
  run tr start = Ok (s, hs) ->
  ConvertBytesToMessage p = (m, None) ->
  Write p s = Ok ((n, e), s') ->
  sink s' = sink s
  /\ (forall id ch, listeners (sink s) !! id = Some ch ->
                    chans s' !! ch = push m <$> chans s !! ch)
  /\ (forall ch, (forall id, listeners (sink s) !! id <> Some ch) ->
                 chans s' !! ch = chans s !! ch).
Proof.
  intros Hrun Hp Hw. pose proof (reachable_ok _ _ Hrun) as Hok.
  apply Write_Ok in Hw. destruct Hok as (Hcv & Hrest). simpl in Hcv.
  rewrite Hcv, Hp in Hw. destruct Hw as (_ & _ & Hs).
  apply send_effect in Hs as (Hsink & _ & Hin & Hout).
  - auto.
  - apply (run_ok_registry (s, hs)). split; assumption.
Qed.

Lemma X6_write_fans_out_witness :
  chans (after [OpListen "bcdfgh"; OpListen "jklmnp"; OpWrite rec2; OpWrite rec1]).1 !! 1%nat
  = push msg1 <$> chans (after [OpListen "bcdfgh"; OpListen "jklmnp"; OpWrite rec2]).1 !! 1%nat.
Proof.
  refine (proj1 (proj2 (X6_write_fans_out
            [OpListen "bcdfgh"; OpListen "jklmnp"; OpWrite rec2]
            (after [OpListen "bcdfgh"; OpListen "jklmnp"; OpWrite rec2]).1
            (after [OpListen "bcdfgh"; OpListen "jklmnp"; OpWrite rec2; OpWrite rec1]).1
            (after [OpListen "bcdfgh"; OpListen "jklmnp"; OpWrite rec2]).2
            rec1 msg1 (len rec1) None _ _ _)) "jklmnp" 1%nat _).
  - reflexivity.
  - vm_compute. reflexivity.
  - reflexivity.
  - vm_compute. reflexivity.
Defined.

(** X7: every queue of the sink has capacity 1000 and never holds more than
    1000 messages. *)
Theorem X7_queue_capacity (tr : list op) (r : Run) (ch : nat) (c : chan) :
  run tr start = Ok r -> chans r.1 !! ch = Some c ->
  cap c = 1000%nat /\ (length (buf c) <= 1000)%nat.
Proof.
  intros Hrun Hc.
  assert (Hall : Forall chan_ok (chans r.1)).
  { apply (run_chans_ok tr start r); [constructor | assumption]. }
  destruct (Forall_lookup_1 _ _ _ _ Hall Hc) as [Hcap Hle]. split; [assumption | lia].
Qed.

Lemma X7_queue_capacity_witness :
  cap (mkChan 1000 [msg2; msg1] false [msg2; msg1]) = 1000%nat
  /\ (length (buf (mkChan 1000 [msg2; msg1] false [msg2; msg1])) <= 1000)%nat.
Proof.
  apply (X7_queue_capacity [OpListen "bcdfgh"; OpWrite rec2; OpWrite rec1]
           (after [OpListen "bcdfgh"; OpWrite rec2; OpWrite rec1]) 0%nat).
  - reflexivity.
  - vm_compute. reflexivity.
Defined.

(** X8: in a state a run reaches, [Write] of a record that parses blocks
    exactly when the queue of some entry of the map is full. *)
Theorem X8_write_blocks_iff_full
        (tr : list op) (s : State) (hs : list ListenCancelFunc) (p : string) :
  run tr start = Ok (s, hs) ->
  snd (ConvertBytesToMessage p) = None ->
  Write p s = Blocked
  <-> exists id ch, listeners (sink s) !! id = Some ch /\ ~ has_room (chans s) ch.
Proof.
  intros Hrun Hp. pose proof (reachable_ok _ _ Hrun) as Hok.
  pose proof (run_ok_registry _ Hok) as Hreg. simpl in Hreg.
  destruct (registry_range s Hreg) as [Hnd Hopen].
  destruct Hok as (Hcv & _). simpl in Hcv.
  unfold Write. rewrite Hcv.
  destruct (ConvertBytesToMessage p) as [m [err|]]; [discriminate|].
  unfold send. split.
  - intros Hb.
    destruct (send_all (map_to_list (listeners (sink s))) m (chans s))
      as [h'| |] eqn:Hs; simpl in Hb; try discriminate.
    destruct (send_all_Blocked _ _ _ Hnd Hopen Hs) as (ch & [id Hin]%in_range & Hfull).
    eauto.
  - intros (id & ch & Hin & Hfull).
    destruct (send_all (map_to_list (listeners (sink s))) m (chans s))
      as [h'|msg|] eqn:Hs; simpl; [| |reflexivity].
    + exfalso. apply Hfull. apply (send_all_Ok_room _ _ _ _ Hs Hnd).
      apply in_range. eauto.
    + now destruct (send_all_no_panic _ m _ msg Hopen).
Qed.

Lemma X8_write_blocks_iff_full_witness :
  Write rec1 (after (OpListen "bcdfgh" :: repeat (OpWrite rec2) 1000)).1 = Blocked.
Proof.
  apply (X8_write_blocks_iff_full
           (OpListen "bcdfgh" :: repeat (OpWrite rec2) 1000)
           (after (OpListen "bcdfgh" :: repeat (OpWrite rec2) 1000)).1
           (after (OpListen "bcdfgh" :: repeat (OpWrite rec2) 1000)).2 rec1).
  - apply returns_after. vm_compute. reflexivity.
  - vm_compute. reflexivity.
  - exists "bcdfgh", 0%nat. split; [vm_compute; reflexivity|].
    intros Hroom%has_roomb_spec. vm_compute in Hroom. discriminate.
Defined.

(** ** Nothing is lost or reordered inside a queue *)

Lemma received_same (o : op) (r r1 : Run) (ch : nat) :
  sent_on (chans r1.1) ch = sent_on (chans r.1) ch ->
  buf <$> chans r1.1 !! ch = buf <$> chans r.1 !! ch ->
  recv_now ch o r = [] ->
  match chans r.1 !! ch with
  | Some c =>
      exists c1, chans r1.1 !! ch = Some c1
                 /\ forall pre, sent c = pre ++ buf c ->
                                sent c1 = pre ++ recv_now ch o r ++ buf c1
  | None =>
      recv_now ch o r = []
      /\ forall c1, chans r1.1 !! ch = Some c1 -> sent c1 = [] /\ buf c1 = []
  end.
Proof.
  unfold sent_on. intros Hsent Hbuf ->.
  destruct (chans r.1 !! ch) as [c|]; destruct (chans r1.1 !! ch) as [c1|];
    simpl in *; try discriminate.
  - exists c1. split; [reflexivity|]. intros pre Hpre.
    injection Hsent as ->. injection Hbuf as ->. exact Hpre.
  - split; [reflexivity|]. intros c1 [=].
Qed.

(** One call keeps [sent = received ++ buf] for every queue, and a queue made
    by the call starts empty. *)
Lemma step_received (o : op) (r r1 : Run) (ch : nat) :
  run_ok r -> step o r = Ok r1 ->
  match chans r.1 !! ch with
  | Some c =>
      exists c1, chans r1.1 !! ch = Some c1
                 /\ forall pre, sent c = pre ++ buf c ->
                                sent c1 = pre ++ recv_now ch o r ++ buf c1
  | None =>
      recv_now ch o r = []
      /\ forall c1, chans r1.1 !! ch = Some c1 -> sent c1 = [] /\ buf c1 = []
  end.
Proof.
  intros Hok Hstep. destruct r as [s hs].
  destruct o as [id|k| |p| |k]; simpl in Hstep.
  - injection Hstep as <-. simpl.
    destruct (chans s !! ch) as [c|] eqn:Hc.
    + exists c. split; [now apply lookup_app_l_Some|].
      intros pre Hpre. exact Hpre.
    + split; [reflexivity|]. intros c1 Hc1.
      apply lookup_ge_None_1 in Hc. rewrite lookup_app_r in Hc1 by assumption.
      apply list_lookup_singleton_Some in Hc1 as [_ <-]. split; reflexivity.
  - destruct (hs !! k) as [f|]; [|injection Hstep as <-; now apply received_same].
    unfold cancel in Hstep.
    destruct (chan_close (chans s) (cf_ch f)) as [h1| |] eqn:Hc;
      simpl in Hstep; try discriminate.
    injection Hstep as <-.
    apply chan_close_effect in Hc as (_ & _ & _ & _ & Hsent & Hbuf).
    apply received_same; simpl; auto.
  - unfold Close in Hstep.
    destruct (close_all _ _ _) as [[ls' h']| |] eqn:Hc; simpl in Hstep; try discriminate.
    injection Hstep as <-.
    apply received_same; simpl; [|now apply (close_all_bufs _ _ _ _ _ Hc) | reflexivity].
    now apply close_all_Ok in Hc as (_ & _ & _ & _ & Hsent).
  - apply (step_write p s hs r1 Hok) in Hstep.
    destruct (ConvertBytesToMessage p) as [m [err|]].
    + subst r1. now apply received_same.
    + destruct Hstep as (s' & -> & Hs).
      apply send_effect in Hs as (_ & _ & Hin & Hout);
        [|now apply (run_ok_registry (s, hs))].
      simpl in *.
      destruct (decide (ch ∈ (map_to_list (listeners (sink s))).*2)) as [Hreg|Hno].
      * apply in_range in Hreg as [id Hid]. rewrite (Hin _ _ Hid).
        destruct (chans s !! ch) as [c|]; simpl.
        -- exists (push m c). split; [reflexivity|]. intros pre Hpre. simpl.
           now rewrite Hpre, <- app_assoc.
        -- split; [reflexivity|]. intros c1 [=].
      * apply (received_same (OpWrite p) (s, hs) (s', hs)); simpl; [| |reflexivity];
          unfold sent_on; rewrite Hout; try reflexivity;
          intros id Hid; apply Hno, in_range; eauto.
  - injection Hstep as <-. now apply received_same.
  - destruct (hs !! k) as [f|] eqn:Hk;
      [|injection Hstep as <-; apply received_same; simpl; try reflexivity;
        now rewrite Hk].
    destruct (chan_recv (chans s) (cf_ch f)) as [[[m okb] h1]| |] eqn:Hr;
      simpl in Hstep; try discriminate.
    injection Hstep as <-. simpl. rewrite Hk.
    pose proof Hr as Hr'. unfold chan_recv in Hr'.
    destruct (chans s !! cf_ch f) as [c0|] eqn:Hc0; [|discriminate].
    destruct (buf c0) as [|m0 rest] eqn:Hbuf0.
    + destruct (closed c0); [|discriminate]. injection Hr' as <- <- <-.
      assert (Hnow : (if Nat.eqb (cf_ch f) ch
                      then match chan_recv (chans s) ch with
                           | Ok (m, true, _) => [m]
                           | _ => []
                           end
                      else []) = []).
      { destruct (Nat.eqb_spec (cf_ch f) ch) as [<-|]; [now rewrite Hr | reflexivity]. }
      rewrite Hnow.
      destruct (chans s !! ch) as [c|].
      * exists c. split; [reflexivity|]. intros pre Hpre. exact Hpre.
      * split; [reflexivity|]. intros c1 [=].
    + injection Hr' as <- <- <-.
      destruct (Nat.eqb_spec (cf_ch f) ch) as [<-|Hne].
      * rewrite Hr, Hc0.
        exists (mkChan (cap c0) rest (closed c0) (sent c0)).
        split; [apply list_lookup_insert_eq; now apply lookup_lt_Some in Hc0|].
        intros pre Hpre. simpl. rewrite Hpre, Hbuf0. reflexivity.
      * rewrite list_lookup_insert_ne by assumption.
        destruct (chans s !! ch) as [c|].
        -- exists c. split; [reflexivity|]. intros pre Hpre. exact Hpre.
        -- split; [reflexivity|]. intros c1 [=].
Qed.

Lemma run_received (ch : nat) (tr : list op) (r r' : Run) (c' : chan) :
  run_ok r -> run tr r = Ok r' -> chans r'.1 !! ch = Some c' ->
  match chans r.1 !! ch with
  | Some c => forall pre, sent c = pre ++ buf c ->
                          sent c' = pre ++ received ch tr r ++ buf c'
  | None => sent c' = received ch tr r ++ buf c'
  end.
Proof.
  revert r. induction tr as [|o tr IH]; intros r Hok Hrun Hc'.
  - simpl in Hrun. injection Hrun as <-. rewrite Hc'. intros pre Hpre. exact Hpre.
  - simpl in Hrun. destruct (step o r) as [r1| |] eqn:Hs; simpl in Hrun; try discriminate.
    pose proof (step_run_ok o r r1 Hok Hs) as Hok1.
    pose proof (step_received o r r1 ch Hok Hs) as Hstep.
    specialize (IH r1 Hok1 Hrun Hc'). cbn [received]. rewrite Hs.
    destruct (chans r.1 !! ch) as [c|].
    + destruct Hstep as (c1 & Hc1 & Hkeep). rewrite Hc1 in IH.
      intros pre Hpre. specialize (Hkeep pre Hpre). rewrite app_assoc in Hkeep.
      rewrite (IH _ Hkeep), <- !app_assoc. reflexivity.
    + destruct Hstep as [Hnow Hnew]. rewrite Hnow. simpl.
      destruct (chans r1.1 !! ch) as [c1|]; [|exact IH].
      destruct (Hnew c1 eq_refl) as [Hs1 Hb1].
      apply (IH []). now rewrite Hs1, Hb1.
Qed.

(** X9: along every run, the messages sent on a queue are the messages the
    consumers have received from it followed by the messages it still holds,
    in that order: a queue loses, repeats and reorders nothing. *)
Theorem X9_queue_is_fifo (tr : list op) (r : Run) (ch : nat) (c : chan) :
  run tr start = Ok r -> chans r.1 !! ch = Some c ->
  sent c = received ch tr start ++ buf c.
Proof.
  intros Hrun Hc.
  exact (run_received ch tr start r c run_ok_start Hrun Hc).
Qed.

Lemma X9_queue_is_fifo_witness :
  [msg1; msg2; msg1]
  = received 0 [OpListen "bcdfgh"; OpWrite rec1; OpWrite rec2; OpRecv 0;
                OpWrite rec1; OpRecv 0] start
    ++ [msg1].
Proof.
  apply (X9_queue_is_fifo
           [OpListen "bcdfgh"; OpWrite rec1; OpWrite rec2; OpRecv 0; OpWrite rec1; OpRecv 0]
           (after [OpListen "bcdfgh"; OpWrite rec1; OpWrite rec2; OpRecv 0;
                   OpWrite rec1; OpRecv 0])
           0%nat (mkChan 1000 [msg1] false [msg1; msg2; msg1])).
  - apply returns_after. vm_compute. reflexivity.
  - vm_compute. reflexivity.
Defined.

(** ** Closed queues, shutdown and cancellation *)

Lemma closed_unregistered (r : Run) (ch : nat) :
  run_ok r -> is_closed (chans r.1) ch ->
  forall id, listeners (sink r.1) !! id <> Some ch.
Proof.
  intros (_ & Hent & _) Hcl id Hid. destruct (Hent _ _ Hid) as [_ Hopen].
  unfold is_open, is_closed in *. congruence.
Qed.

Lemma chan_recv_closed (h : list chan) (ch : nat) :
  is_closed h ch ->
  chan_recv h ch <> Blocked
  /\ (buf <$> h !! ch = Some [] -> chan_recv h ch = Ok (zeroMessage, false, h)).
Proof.
  unfold is_closed, chan_recv. destruct (h !! ch) as [c|]; simpl; [|discriminate].
  intros [= Hc]. rewrite Hc. destruct (buf c) as [|m rest].
  - split; [discriminate | reflexivity].
  - split; [discriminate | intros [=]].
Qed.

(** X10: once a queue is closed (by its closure or by [Close]), no later
    call sends on it, and receiving from it never blocks: it returns the
    messages still buffered, then the zero message with [ok = false]. *)
Theorem X10_closed_queue_drains (tr tr2 : list op) (r r2 : Run) (ch : nat) :
  run tr start = Ok r -> is_closed (chans r.1) ch -> run tr2 r = Ok r2 ->
  sent_on (chans r2.1) ch = sent_on (chans r.1) ch
  /\ chan_recv (chans r2.1) ch <> Blocked
  /\ (buf <$> chans r2.1 !! ch = Some [] ->
      chan_recv (chans r2.1) ch = Ok (zeroMessage, false, chans r2.1)).
Proof.
  intros Hrun Hcl Hrun2. pose proof (reachable_ok _ _ Hrun) as Hok.
  split.
  - destruct (sent_on (chans r.1) ch) as [l|] eqn:Hsent.
    + apply (run_unregistered tr2 r r2 ch l Hok Hrun2 Hsent).
      now apply closed_unregistered.
    + unfold sent_on, is_closed in *. destruct (chans r.1 !! ch); discriminate.
  - apply chan_recv_closed. now apply (run_closed tr2 r r2).
Qed.

Lemma X10_closed_queue_drains_witness :
  sent_on (chans (after [OpListen "bcdfgh"; OpWrite rec1; OpCancel 0; OpWrite rec2;
                         OpRecv 0]).1) 0
  = sent_on (chans (after [OpListen "bcdfgh"; OpWrite rec1; OpCancel 0]).1) 0
  /\ chan_recv (chans (after [OpListen "bcdfgh"; OpWrite rec1; OpCancel 0; OpWrite rec2;
                              OpRecv 0]).1) 0
     = Ok (zeroMessage, false,
           chans (after [OpListen "bcdfgh"; OpWrite rec1; OpCancel 0; OpWrite rec2;
                         OpRecv 0]).1).
Proof.
  destruct (X10_closed_queue_drains
              [OpListen "bcdfgh"; OpWrite rec1; OpCancel 0] [OpWrite rec2; OpRecv 0]
              (after [OpListen "bcdfgh"; OpWrite rec1; OpCancel 0])
              (after [OpListen "bcdfgh"; OpWrite rec1; OpCancel 0; OpWrite rec2; OpRecv 0])
              0%nat) as (Hsent & _ & Hempty).
  - reflexivity.
  - vm_compute. reflexivity.
  - reflexivity.
  - split; [exact Hsent | apply Hempty; vm_compute; reflexivity].
Defined.

(** X11: after [Close], the closure of every subscriber that was still
    registered panics with "close of closed channel" when it is called,
    at once or after any further calls. *)
Theorem X11_cancel_after_close_panics
        (tr tr2 : list op) (s s' : State) (hs hs2 : list ListenCancelFunc)
        (id : string) (ch : nat) (e : option error) (r2 : Run) :
  run tr start = Ok (s, hs) ->
  listeners (sink s) !! id = Some ch ->
  Close s = Ok (e, s') ->
  run tr2 (s', hs2) = Ok r2 ->
  mkCancel ch id ∈ hs
  /\ cancel (mkCancel ch id) r2.1 = Panic "close of closed channel".
Proof.
  intros Hrun Hid Hc Hrun2. pose proof (reachable_ok _ _ Hrun) as (_ & Hent & _).
  split; [now apply (Hent id ch)|].
  apply Close_effect in Hc as (_ & _ & _ & _ & Hin & _).
  destruct (Hin _ _ Hid) as [_ Hcl].
  unfold cancel. simpl.
  now rewrite (chan_close_closed _ _ (run_closed tr2 (s', hs2) r2 ch Hrun2 Hcl)).
Qed.

Lemma X11_cancel_after_close_panics_witness :
  cancel (mkCancel 0 "bcdfgh")
         (after [OpListen "bcdfgh"; OpWrite rec1; OpClose; OpListen "jklmnp"]).1
  = Panic "close of closed channel".
Proof.
  refine (proj2 (X11_cancel_after_close_panics
            [OpListen "bcdfgh"; OpWrite rec1] [OpListen "jklmnp"]
            (after [OpListen "bcdfgh"; OpWrite rec1]).1
            (after [OpListen "bcdfgh"; OpWrite rec1; OpClose]).1
            (after [OpListen "bcdfgh"; OpWrite rec1]).2
            (after [OpListen "bcdfgh"; OpWrite rec1; OpClose]).2
            "bcdfgh" 0%nat None
            (after [OpListen "bcdfgh"; OpWrite rec1; OpClose; OpListen "jklmnp"])
            _ _ _ _)).
  - reflexivity.
  - vm_compute. reflexivity.
  - reflexivity.
  - reflexivity.
Defined.

(** X12: a second [Close] finds no listener: it returns a nil error and
    changes nothing. *)
Theorem X12_close_twice (s s' : State) (e : option error) :
  Close s = Ok (e, s') -> Close s' = Ok (None, s').
Proof.
  intros (_ & Hemp & _)%Close_effect. unfold Close.
  rewrite Hemp, map_to_list_empty. simpl. unfold set_chans, set_listeners. simpl.
  rewrite <- Hemp at 1. now rewrite state_eta.
Qed.

Lemma X12_close_twice_witness :
  Close (after [OpListen "bcdfgh"; OpWrite rec1; OpClose]).1
  = Ok (None, (after [OpListen "bcdfgh"; OpWrite rec1; OpClose]).1).
Proof.
  apply (X12_close_twice (after [OpListen "bcdfgh"; OpWrite rec1]).1 _ None).
  reflexivity.
Defined.

(** X13: with no listener in the map, whatever the converter is, [Write] of
    a record it accepts returns the length of the input and a nil error and
    leaves the sink and every channel as they were. *)
Theorem X13_write_without_listeners (s : State) (p : string) (m : Message) :
  listeners (sink s) = ∅ ->
  converter (sink s) p = (m, None) ->
  Write p s = Ok ((len p, None), s).
Proof.
  intros Hemp Hp. unfold Write, send. rewrite Hp, Hemp, map_to_list_empty. simpl.
  unfold set_chans. now destruct s.
Qed.

Lemma X13_write_without_listeners_witness :
  Write rec1 (after [OpListen "bcdfgh"; OpClose]).1
  = Ok ((len rec1, None), (after [OpListen "bcdfgh"; OpClose]).1).
Proof.
  apply (X13_write_without_listeners (after [OpListen "bcdfgh"; OpClose]).1 rec1 msg1).
  - vm_compute. reflexivity.
  - vm_compute. reflexivity.
Defined.

(** X14: [Listen] under an identity that is not in the map, followed by a
    call of the closure it returned, gives the sink back as it was; all that
    remains is one more channel, closed and empty. *)
Theorem X14_listen_cancel_round_trip (id : string) (s : State) :
  listeners (sink s) !! id = None ->
  cancel (Listen id s).1.2 (Listen id s).2
  = Ok (mkState (sink s) (chans s ++ [mkChan 1000 [] true []])).
Proof.
  intros Hfree. unfold cancel, Listen, chan_close. simpl.
  rewrite list_lookup_middle by reflexivity. simpl.
  rewrite insert_app_r_alt, Nat.sub_diag by lia. simpl.
  unfold set_listeners, set_chans. simpl.
  rewrite delete_insert_id by assumption. now destruct s as [[ls cv] h].
Qed.

Lemma X14_listen_cancel_round_trip_witness :
  cancel (Listen "jklmnp" (after [OpListen "bcdfgh"]).1).1.2
         (Listen "jklmnp" (after [OpListen "bcdfgh"]).1).2
  = Ok (mkState (sink (after [OpListen "bcdfgh"]).1)
                (chans (after [OpListen "bcdfgh"]).1 ++ [mkChan 1000 [] true []])).
Proof.
  apply (X14_listen_cancel_round_trip "jklmnp" (after [OpListen "bcdfgh"]).1).
  vm_compute. reflexivity.
Defined.

(** ** Two [Write]s that overlap *)

Section OverlapFacts.

Implicit Types (l : list (nat * Message)) (h : list chan) (m : Message)
         (ls : gmap string nat).

Lemma msgs_for_cons (ch a : nat) m l :
  msgs_for ch ((a, m) :: l)
  = if decide (a = ch) then m :: msgs_for ch l else msgs_for ch l.
Proof.
  unfold msgs_for. rewrite filter_cons. simpl.
  destruct (decide (a = ch)); reflexivity.
Qed.

Lemma msgs_for_app (ch : nat) l1 l2 :
  msgs_for ch (l1 ++ l2) = msgs_for ch l1 ++ msgs_for ch l2.
Proof. unfold msgs_for. now rewrite filter_app, fmap_app. Qed.

Lemma msgs_for_perm (ch : nat) l1 l2 :
  l1 ≡ₚ l2 -> msgs_for ch l1 ≡ₚ msgs_for ch l2.
Proof. intros H. unfold msgs_for. now rewrite H. Qed.

Lemma msgs_for_none (ch : nat) l : ch ∉ l.*1 -> msgs_for ch l = [].
Proof.
  induction l as [|[a m] l IH]; [reflexivity|].
  rewrite fmap_cons, not_elem_of_cons, msgs_for_cons. simpl.
  intros [Hne Hout]. rewrite decide_False by congruence. auto.
Qed.

(** The sends of a sequence, one after the other: they all return when the
    channels are open and have room for what the sequence sends on them, and
    each channel has then been sent its messages of the sequence, in order. *)
Lemma do_sends_effect l h :
  (forall ch, ch ∈ l.*1 ->
     exists c, h !! ch = Some c /\ closed c = false
               /\ (length (buf c) + length (msgs_for ch l) <= cap c)%nat) ->
  exists h', do_sends l h = Ok h'
             /\ forall ch, sent_on h' ch = (fun old => old ++ msgs_for ch l) <$> sent_on h ch.
Proof.
  revert h. induction l as [|[a m] l IH]; intros h Hall.
  - exists h. split; [reflexivity|]. intros ch. unfold sent_on, msgs_for. simpl.
    destruct (h !! ch) as [c|]; simpl; [|reflexivity]. now rewrite app_nil_r.
  - cbn [do_sends].
    destruct (Hall a) as (c & Hc & Hcl & Hroom); [rewrite fmap_cons; apply list_elem_of_here|].
    rewrite msgs_for_cons, decide_True in Hroom by reflexivity. simpl in Hroom.
    unfold chan_send. rewrite Hc, Hcl.
    assert (Hlt : (length (buf c) <? cap c)%nat = true) by (apply Nat.ltb_lt; lia).
    rewrite Hlt. cbn [rbind].
    destruct (IH (<[a := push m c]> h)) as (h' & Hrun & Hsent).
    { intros ch Hch. rewrite (update_lookup h a c _ ch Hc).
      destruct (decide (ch = a)) as [->|Hne].
      - exists (push m c). split; [reflexivity|]. split; [exact Hcl|].
        simpl. rewrite length_app. simpl. lia.
      - destruct (Hall ch) as (c' & Hc' & Hcl' & Hroom');
          [rewrite fmap_cons; now apply list_elem_of_further|].
        rewrite msgs_for_cons, decide_False in Hroom' by congruence. eauto. }
    exists h'. split; [exact Hrun|]. intros ch. rewrite Hsent. unfold sent_on.
    rewrite (update_lookup h a c _ ch Hc), msgs_for_cons.
    destruct (decide (ch = a)) as [->|Hne].
    + rewrite decide_True by reflexivity. rewrite Hc. simpl.
      now rewrite <- app_assoc.
    + rewrite decide_False by congruence. reflexivity.
Qed.

Lemma interleaving_perm {A : Type} (l1 l2 l : list A) :
  interleaving l1 l2 l -> l ≡ₚ l1 ++ l2.
Proof.
  induction 1 as [|x l1 l2 l _ IH|x l1 l2 l _ IH]; [reflexivity| |].
  - simpl. now rewrite IH.
  - rewrite IH. apply Permutation_middle.
Qed.

Lemma interleaving_nil_r {A : Type} (l : list A) : interleaving l [] l.
Proof. induction l; constructor; assumption. Qed.

Lemma interleaving_nil_l {A : Type} (l : list A) : interleaving [] l l.
Proof. induction l; constructor; assumption. Qed.

Lemma interleaving_app {A : Type} (l1 l2 : list A) : interleaving l1 l2 (l1 ++ l2).
Proof.
  induction l1 as [|x l1 IH]; [apply interleaving_nil_l|].
  simpl. now constructor.
Qed.

Lemma interleaving_two {A : Type} (x y : A) (l : list A) :
  interleaving [x] [y] l -> l = [x; y] \/ l = [y; x].
Proof.
  intros H. inversion H as [|? ? ? ? H1|? ? ? ? H1]; subst.
  - inversion H1 as [| |? ? ? ? H2]; subst. inversion H2; subst. now left.
  - inversion H1 as [|? ? ? ? H2|]; subst. inversion H2; subst. now right.
Qed.

Lemma msgs_for_interleaving (ch : nat) l1 l2 l :
  interleaving l1 l2 l ->
  interleaving (msgs_for ch l1) (msgs_for ch l2) (msgs_for ch l).
Proof.
  induction 1 as [|[a m] l1 l2 l _ IH|[a m] l1 l2 l _ IH]; [constructor| |];
    rewrite !msgs_for_cons; destruct (decide (a = ch)); try assumption;
    now constructor.
Qed.

Lemma sends_of_range m ls : (sends_of m ls).*1 = (map_to_list ls).*2.
Proof. unfold sends_of. rewrite <- list_fmap_compose. reflexivity. Qed.

Lemma sends_of_delete m ls (id : string) (ch : nat) :
  ls !! id = Some ch -> sends_of m ls ≡ₚ (ch, m) :: sends_of m (delete id ls).
Proof.
  intros H. unfold sends_of.
  now rewrite <- (map_to_list_delete ls id ch H), fmap_cons.
Qed.

(** One loop of [send] sends its message once on a registered channel. *)
Lemma msgs_for_registered m ls (id : string) (ch : nat) :
  (forall id1 id2 c, ls !! id1 = Some c -> ls !! id2 = Some c -> id1 = id2) ->
  ls !! id = Some ch -> msgs_for ch (sends_of m ls) = [m].
Proof.
  intros Hinj Hid. apply Permutation_singleton_r.
  rewrite (msgs_for_perm ch _ _ (sends_of_delete m ls id ch Hid)).
  rewrite msgs_for_cons, decide_True by reflexivity.
  rewrite msgs_for_none; [reflexivity|].
  rewrite sends_of_range. intros [id' Hid']%in_range.
  apply lookup_delete_Some in Hid' as [Hne Hid'].
  now apply Hne, (Hinj id id' ch).
Qed.

Lemma msgs_for_registered_perm m ls (id : string) (ch : nat) l :
  (forall id1 id2 c, ls !! id1 = Some c -> ls !! id2 = Some c -> id1 = id2) ->
  ls !! id = Some ch -> l ≡ₚ sends_of m ls -> msgs_for ch l = [m].
Proof.
  intros Hinj Hid Hl. apply Permutation_singleton_r.
  now rewrite (msgs_for_perm ch _ _ Hl), (msgs_for_registered m ls id ch Hinj Hid).
Qed.

Lemma room_for_two_spec (s : State) (id : string) (ch : nat) :
  room_for_two s = true -> listeners (sink s) !! id = Some ch ->
  exists c, chans s !! ch = Some c /\ (S (length (buf c)) < cap c)%nat.
Proof.
  unfold room_for_two. rewrite forallb_forall. intros Hall Hid.
  specialize (Hall (id, ch)). simpl in Hall.
  destruct (chans s !! ch) as [c|].
  - exists c. split; [reflexivity|]. apply Nat.ltb_lt, Hall.
    apply list_elem_of_In. now apply elem_of_map_to_list.
  - discriminate Hall. apply list_elem_of_In. now apply elem_of_map_to_list.
Qed.

(** Two overlapping [Write]s on a sink whose queues have room both go
    through, and every registered queue is sent both messages, one way round
    or the other. *)
Lemma overlapped_sends (s : State) (m1 m2 : Message) l :
  registry_ok s -> room_for_two s = true -> overlapped m1 m2 s l ->
  exists h', do_sends l (chans s) = Ok h'
    /\ forall id ch old,
         listeners (sink s) !! id = Some ch -> sent_on (chans s) ch = Some old ->
         sent_on h' ch = Some (old ++ msgs_for ch l)
         /\ (msgs_for ch l = [m1; m2] \/ msgs_for ch l = [m2; m1]).
Proof.
  intros [Hopen Hinj] Hroom (l1 & l2 & Hp1 & Hp2 & Hint).
  assert (Htwo : forall id ch, listeners (sink s) !! id = Some ch ->
                   msgs_for ch l = [m1; m2] \/ msgs_for ch l = [m2; m1]).
  { intros id ch Hid. apply interleaving_two.
    rewrite <- (msgs_for_registered_perm m1 _ id ch l1 Hinj Hid Hp1).
    rewrite <- (msgs_for_registered_perm m2 _ id ch l2 Hinj Hid Hp2).
    now apply msgs_for_interleaving. }
  destruct (do_sends_effect l (chans s)) as (h' & Hrun & Hsent).
  { intros ch Hch.
    assert (Hreg : exists id, listeners (sink s) !! id = Some ch).
    { apply in_range. rewrite <- (sends_of_range m1).
      rewrite (interleaving_perm _ _ _ Hint), fmap_app, elem_of_app in Hch.
      destruct Hch as [Hch|Hch].
      - now rewrite <- Hp1.
      - rewrite Hp2, sends_of_range in Hch. now rewrite sends_of_range. }
    destruct Hreg as [id Hid].
    destruct (room_for_two_spec s id ch Hroom Hid) as (c & Hc & Hlt).
    exists c. split; [exact Hc|]. split.
    - pose proof (Hopen id ch Hid) as Ho. unfold is_open in Ho.
      rewrite Hc in Ho. now injection Ho.
    - destruct (Htwo id ch Hid) as [->| ->]; simpl; lia. }
  exists h'. split; [exact Hrun|]. intros id ch old Hid Hold.
  split; [|now apply (Htwo id)].
  now rewrite Hsent, Hold.
Qed.

(** An interleaving in which the loop for [m1] reaches the channel of [id1]
    first and the loop for [m2] reaches the channel of [id2] first. *)
Lemma overlapped_crossed (s : State) (m1 m2 : Message) (id1 id2 : string)
      (ch1 ch2 : nat) :
  listeners (sink s) !! id1 = Some ch1 -> listeners (sink s) !! id2 = Some ch2 ->
  overlapped m1 m2 s
    ((ch1, m1) :: (ch2, m2)
     :: sends_of m1 (delete id1 (listeners (sink s)))
     ++ sends_of m2 (delete id2 (listeners (sink s)))).
Proof.
  intros H1 H2.
  exists ((ch1, m1) :: sends_of m1 (delete id1 (listeners (sink s)))),
         ((ch2, m2) :: sends_of m2 (delete id2 (listeners (sink s)))).
  split; [symmetry; now apply sends_of_delete|].
  split; [symmetry; now apply sends_of_delete|].
  apply interleaving_left, interleaving_right, interleaving_app.
Qed.

Lemma msgs_for_crossed (s : State) (m1 m2 : Message) (id1 id2 : string)
      (ch1 ch2 : nat) :
  registry_ok s -> id1 <> id2 ->
  listeners (sink s) !! id1 = Some ch1 -> listeners (sink s) !! id2 = Some ch2 ->
  msgs_for ch1 ((ch1, m1) :: (ch2, m2)
                :: sends_of m1 (delete id1 (listeners (sink s)))
                ++ sends_of m2 (delete id2 (listeners (sink s)))) = [m1; m2]
  /\ msgs_for ch2 ((ch1, m1) :: (ch2, m2)
                   :: sends_of m1 (delete id1 (listeners (sink s)))
                   ++ sends_of m2 (delete id2 (listeners (sink s)))) = [m2; m1].
Proof.
  intros [_ Hinj] Hne H1 H2.
  assert (Hch : ch1 <> ch2) by (intros ->; now apply Hne, (Hinj id1 id2 ch2)).
  assert (Hinjd : forall id, forall i j c,
            delete id (listeners (sink s)) !! i = Some c ->
            delete id (listeners (sink s)) !! j = Some c -> i = j).
  { intros id i j c [_ Hi]%lookup_delete_Some [_ Hj]%lookup_delete_Some.
    now apply (Hinj i j c). }
  assert (Hgone : forall m id ch, listeners (sink s) !! id = Some ch ->
            msgs_for ch (sends_of m (delete id (listeners (sink s)))) = []).
  { intros m id ch Hid. apply msgs_for_none. rewrite sends_of_range.
    intros [id' [Hne' Hid']%lookup_delete_Some]%in_range.
    now apply Hne', (Hinj id id' ch). }
  rewrite !msgs_for_cons, !msgs_for_app.
  rewrite (decide_True (P := ch1 = ch1)) by reflexivity.
  rewrite (decide_True (P := ch2 = ch2)) by reflexivity.
  rewrite (decide_False (P := ch2 = ch1)) by congruence.
  rewrite (decide_False (P := ch1 = ch2)) by congruence.
  rewrite (Hgone m1 id1 ch1 H1), (Hgone m2 id2 ch2 H2).
  rewrite (msgs_for_registered m2 _ id1 ch1 (Hinjd id2)),
          (msgs_for_registered m1 _ id2 ch2 (Hinjd id1)).
  - split; reflexivity.
  - apply lookup_delete_Some. split; [congruence | exact H2].
  - apply lookup_delete_Some. split; [congruence | exact H1].
Qed.

End OverlapFacts.

(** X15: the order in which two subscribers are sent the messages.  Along a
    run, whose calls do not overlap, two subscribers whose entries are in the
    map at each call are sent the same messages in the same order: each queue
    gets the messages the run ingests appended to what it had.  When two
    [Write]s overlap on a sink whose queues have room for two messages, both
    go through and each registered queue is sent both messages, one way round
    or the other; and the order is not the same for all: for any two
    subscribers there is a way for the sends to follow each other in which
    one is sent [m1] and then [m2], the other [m2] and then [m1]. *)
Theorem X15_order_across_subscribers
        (tr0 : list op) (r : Run) (id1 id2 : string) (ch1 ch2 : nat)
        (old1 old2 : list Message) :
  run tr0 start = Ok r ->
  sent_on (chans r.1) ch1 = Some old1 ->
  sent_on (chans r.1) ch2 = Some old2 ->
  (forall (tr : list op) (r2 : Run),
     run tr r = Ok r2 ->
     stays_registered id1 ch1 tr r = true ->
     stays_registered id2 ch2 tr r = true ->
     sent_on (chans r2.1) ch1 = Some (old1 ++ ingested tr)
     /\ sent_on (chans r2.1) ch2 = Some (old2 ++ ingested tr))
  /\ (forall m1 m2 : Message,
        registered id1 ch1 r = true -> registered id2 ch2 r = true ->
        room_for_two r.1 = true ->
        (forall l, overlapped m1 m2 r.1 l ->
           exists h', do_sends l (chans r.1) = Ok h'
             /\ (sent_on h' ch1 = Some (old1 ++ [m1; m2])
                 \/ sent_on h' ch1 = Some (old1 ++ [m2; m1]))
             /\ (sent_on h' ch2 = Some (old2 ++ [m1; m2])
                 \/ sent_on h' ch2 = Some (old2 ++ [m2; m1])))
        /\ (id1 <> id2 ->
            exists l h', overlapped m1 m2 r.1 l
              /\ do_sends l (chans r.1) = Ok h'
              /\ sent_on h' ch1 = Some (old1 ++ [m1; m2])
              /\ sent_on h' ch2 = Some (old2 ++ [m2; m1]))).
Proof.
  intros Hrun H1 H2. pose proof (reachable_ok _ _ Hrun) as Hok. split.
  - intros tr r2 Hrun2 Hs1 Hs2.
    destruct (run_sent ch1 tr r r2 old1 Hok Hrun2 H1) as [_ Ha].
    destruct (run_sent ch2 tr r r2 old2 Hok Hrun2 H2) as [_ Hb].
    split; [apply (Ha id1 Hs1) | apply (Hb id2 Hs2)].
  - intros m1 m2 Hr1%bool_decide_eq_true Hr2%bool_decide_eq_true Hroom.
    pose proof (run_ok_registry r Hok) as Hreg. split.
    + intros l Hov.
      destruct (overlapped_sends r.1 m1 m2 l Hreg Hroom Hov) as (h' & Hdo & Heach).
      exists h'. split; [exact Hdo|].
      destruct (Heach id1 ch1 old1 Hr1 H1) as [Hs1 [Ht1|Ht1]];
        destruct (Heach id2 ch2 old2 Hr2 H2) as [Hs2 [Ht2|Ht2]];
        rewrite Ht1 in Hs1; rewrite Ht2 in Hs2; auto.
    + intros Hne.
      pose proof (overlapped_crossed r.1 m1 m2 id1 id2 ch1 ch2 Hr1 Hr2) as Hov.
      destruct (overlapped_sends r.1 m1 m2 _ Hreg Hroom Hov) as (h' & Hdo & Heach).
      destruct (msgs_for_crossed r.1 m1 m2 id1 id2 ch1 ch2 Hreg Hne Hr1 Hr2)
        as [Hm1 Hm2].
      eexists. exists h'. split; [exact Hov|]. split; [exact Hdo|].
      destruct (Heach id1 ch1 old1 Hr1 H1) as [Hs1 _].
      destruct (Heach id2 ch2 old2 Hr2 H2) as [Hs2 _].
      rewrite Hm1 in Hs1. rewrite Hm2 in Hs2. auto.
Qed.

Lemma X15_order_across_subscribers_witness :
  (sent_on (chans (after [OpListen "bcdfgh"; OpWrite rec2; OpListen "jklmnp";
                          OpWrite rec1; OpRecv 0; OpWrite rec2]).1) 0
   = Some ([msg2] ++ ingested [OpWrite rec1; OpRecv 0; OpWrite rec2])
   /\ sent_on (chans (after [OpListen "bcdfgh"; OpWrite rec2; OpListen "jklmnp";
                             OpWrite rec1; OpRecv 0; OpWrite rec2]).1) 1
      = Some ([] ++ ingested [OpWrite rec1; OpRecv 0; OpWrite rec2]))
  /\ (exists h',
        do_sends [(0%nat, msg1); (0%nat, msg2); (1%nat, msg2); (1%nat, msg1)]
                 (chans (after [OpListen "bcdfgh"; OpWrite rec2; OpListen "jklmnp"]).1)
        = Ok h'
        /\ (sent_on h' 0 = Some ([msg2] ++ [msg1; msg2])
            \/ sent_on h' 0 = Some ([msg2] ++ [msg2; msg1]))
        /\ (sent_on h' 1 = Some ([] ++ [msg1; msg2])
            \/ sent_on h' 1 = Some ([] ++ [msg2; msg1])))
  /\ (exists l h',
        overlapped msg1 msg2
                   (after [OpListen "bcdfgh"; OpWrite rec2; OpListen "jklmnp"]).1 l
        /\ do_sends l (chans (after [OpListen "bcdfgh"; OpWrite rec2;
                                     OpListen "jklmnp"]).1) = Ok h'
        /\ sent_on h' 0 = Some ([msg2] ++ [msg1; msg2])
        /\ sent_on h' 1 = Some ([] ++ [msg2; msg1])).
Proof.
  destruct (X15_order_across_subscribers
              [OpListen "bcdfgh"; OpWrite rec2; OpListen "jklmnp"]
              (after [OpListen "bcdfgh"; OpWrite rec2; OpListen "jklmnp"])
              "bcdfgh" "jklmnp" 0%nat 1%nat [msg2] []) as [Hrun Hover].
  - reflexivity.
  - vm_compute. reflexivity.
  - vm_compute. reflexivity.
  - split.
    { apply (Hrun [OpWrite rec1; OpRecv 0; OpWrite rec2]
                  (after [OpListen "bcdfgh"; OpWrite rec2; OpListen "jklmnp";
                          OpWrite rec1; OpRecv 0; OpWrite rec2])).
      - reflexivity.
      - vm_compute. reflexivity.
      - vm_compute. reflexivity. }
    destruct (Hover msg1 msg2) as [Heach Hcross].
    + vm_compute. reflexivity.
    + vm_compute. reflexivity.
    + vm_compute. reflexivity.
    + split.
      * apply Heach.
        exists [(0%nat, msg1); (1%nat, msg1)], [(0%nat, msg2); (1%nat, msg2)].
        split; [vm_compute; first [reflexivity | apply perm_swap]|].
        split; [vm_compute; first [reflexivity | apply perm_swap]|].
        apply interleaving_left, interleaving_right, interleaving_right,
              interleaving_left, interleaving_nil.
      * apply Hcross. discriminate.
Defined.

(** X16: a call of a closure that returns touches its own identity and its
    own queue only: the entries under other identities, the other channels
    and the messages buffered in its queue are as before; the queue is
    closed and its identity is gone. *)
Theorem X16_cancel_leaves_the_rest (f : ListenCancelFunc) (s s' : State) :
  cancel f s = Ok s' ->
  converter (sink s') = converter (sink s)
  /\ listeners (sink s') !! cf_id f = None
  /\ (forall id, id <> cf_id f ->
                 listeners (sink s') !! id = listeners (sink s) !! id)
  /\ is_closed (chans s') (cf_ch f)
  /\ (forall ch, ch <> cf_ch f -> chans s' !! ch = chans s !! ch)
  /\ buf <$> chans s' !! cf_ch f = buf <$> chans s !! cf_ch f.
Proof.
  unfold cancel.
  destruct (chan_close (chans s) (cf_ch f)) as [h1| |] eqn:Hc; simpl; try discriminate.
  intros [= <-]. simpl.
  apply chan_close_effect in Hc as (_ & _ & Hcl & Hother & _ & Hbuf).
  split; [reflexivity|]. split; [apply lookup_delete_eq|].
  split; [intros id Hne; now apply lookup_delete_ne|]. auto.
Qed.

Lemma X16_cancel_leaves_the_rest_witness :
  listeners (sink (after [OpListen "bcdfgh"; OpListen "jklmnp"; OpWrite rec1;
                          OpCancel 0]).1) !! "jklmnp"
  = listeners (sink (after [OpListen "bcdfgh"; OpListen "jklmnp"; OpWrite rec1]).1)
    !! "jklmnp"
  /\ buf <$> chans (after [OpListen "bcdfgh"; OpListen "jklmnp"; OpWrite rec1;
                           OpCancel 0]).1 !! 0%nat
     = buf <$> chans (after [OpListen "bcdfgh"; OpListen "jklmnp"; OpWrite rec1]).1
       !! 0%nat.
Proof.
  destruct (X16_cancel_leaves_the_rest (mkCancel 0 "bcdfgh")
              (after [OpListen "bcdfgh"; OpListen "jklmnp"; OpWrite rec1]).1
              (after [OpListen "bcdfgh"; OpListen "jklmnp"; OpWrite rec1; OpCancel 0]).1)
    as (_ & _ & Hkeep & _ & _ & Hbuf).
  - reflexivity.
  - split; [apply Hkeep; discriminate | exact Hbuf].
Defined.

(** * Properties of the decoding of view components *)

Section ComponentFacts.

Context `{B : component.Backend}.

Lemma title_loop_ok (ts : list component.TypedObject) (vs : list string)
      (c : component.ContentResponse) :
  Forall2 (fun t v => component.getTitleByUnmarshalInterface (component.Config t) = inr v)
          ts vs ->
  component.title_loop ts c
  = (component.mkContentResponse (component.last_title vs (component.cr_Title c))
                                 (component.cr_Components c), None).
Proof.
  intros Hall. revert c. induction Hall as [|t v ts vs Hv Hall IH]; intros c.
  - now destruct c.
  - cbn [component.title_loop]. rewrite Hv, IH.
    unfold component.last_title, component.Title_.
    cbn [component.cr_Title component.cr_Components].
    destruct vs as [|v2 vs]; [reflexivity|]. rewrite last_cons_cons.
    destruct (last (v2 :: vs)) eqn:Hlast; [reflexivity|].
    now apply last_None in Hlast.
Qed.

Lemma title_loop_fails (ts1 ts2 : list component.TypedObject) (t : component.TypedObject)
      (vs1 : list string) (err : component.error) (c : component.ContentResponse) :
  Forall2 (fun t v => component.getTitleByUnmarshalInterface (component.Config t) = inr v)
          ts1 vs1 ->
  component.getTitleByUnmarshalInterface (component.Config t) = inl err ->
  component.title_loop (ts1 ++ t :: ts2) c
  = (component.mkContentResponse (component.last_title vs1 (component.cr_Title c))
                                 (component.cr_Components c), Some err).
Proof.
  intros Hall Herr. revert c. induction Hall as [|t1 v ts vs Hv Hall IH]; intros c.
  - simpl. rewrite Herr. now destruct c.
  - cbn [app component.title_loop]. rewrite Hv, IH.
    unfold component.last_title, component.Title_.
    cbn [component.cr_Title component.cr_Components].
    destruct vs as [|v2 vs]; [reflexivity|]. rewrite last_cons_cons.
    destruct (last (v2 :: vs)) eqn:Hlast; [reflexivity|].
    now apply last_None in Hlast.
Qed.

Lemma components_loop_ok (tos : list component.TypedObject)
      (vcs : list component.Component) (c : component.ContentResponse) :
  Forall2 (fun to vc => component.ToComponent to = inr vc) tos vcs ->
  component.components_loop tos c
  = (component.mkContentResponse (component.cr_Title c)
                                 (component.cr_Components c ++ vcs), None).
Proof.
  intros Hall. revert c. induction Hall as [|to vc tos vcs Hv Hall IH]; intros c.
  - simpl. rewrite app_nil_r. now destruct c.
  - cbn [component.components_loop]. rewrite Hv, IH. simpl.
    now rewrite <- app_assoc.
Qed.

Lemma components_loop_fails (tos1 tos2 : list component.TypedObject)
      (to : component.TypedObject) (vcs1 : list component.Component)
      (err : component.error) (c : component.ContentResponse) :
  Forall2 (fun to vc => component.ToComponent to = inr vc) tos1 vcs1 ->
  component.ToComponent to = inl err ->
  component.components_loop (tos1 ++ to :: tos2) c
  = (component.mkContentResponse (component.cr_Title c)
                                 (component.cr_Components c ++ vcs1), Some err).
Proof.
  intros Hall Herr. revert c. induction Hall as [|to1 vc tos vcs Hv Hall IH]; intros c.
  - simpl. rewrite Herr, app_nil_r. now destruct c.
  - cbn [app component.components_loop]. rewrite Hv, IH. simpl.
    now rewrite <- app_assoc.
Qed.

(** X17: when the document decodes, every title has a string under "value"
    and every typed object becomes a component, [UnmarshalJSON] of a content
    response returns nil; the components are appended, in order, to those the
    response had, and of the titles only the last is kept, as one text (with
    no title in the document the old title stays). *)
Theorem X17_content_response_decoded
        (data : string) (c : component.ContentResponse) (stage : component.ContentStage)
        (vs : list string) (vcs : list component.Component) :
  component.json_Unmarshal_stage data = inr stage ->
  Forall2 (fun t v => component.getTitleByUnmarshalInterface (component.Config t) = inr v)
          (component.stage_Title stage) vs ->
  Forall2 (fun to vc => component.ToComponent to = inr vc)
          (component.stage_Components stage) vcs ->
  component.ContentResponse_UnmarshalJSON data c
  = (component.mkContentResponse (component.last_title vs (component.cr_Title c))
                                 (component.cr_Components c ++ vcs), None).
Proof.
  intros Hd Hts Hcs. unfold component.ContentResponse_UnmarshalJSON.
  rewrite Hd, (title_loop_ok _ _ _ Hts), (components_loop_ok _ _ _ Hcs).
  reflexivity.
Qed.

(** X18: when a title of the document has no string under "value" (or its
    config does not decode), [UnmarshalJSON] of a content response returns
    that error at the first such title; no component is converted, the
    components of the response are untouched, and its title is already the
    text of the title before the failing one. *)
Theorem X18_content_response_title_fails
        (data : string) (c : component.ContentResponse) (stage : component.ContentStage)
        (ts1 ts2 : list component.TypedObject) (t : component.TypedObject)
        (vs1 : list string) (err : component.error) :
  component.json_Unmarshal_stage data = inr stage ->
  component.stage_Title stage = ts1 ++ t :: ts2 ->
  Forall2 (fun t v => component.getTitleByUnmarshalInterface (component.Config t) = inr v)
          ts1 vs1 ->
  component.getTitleByUnmarshalInterface (component.Config t) = inl err ->
  component.ContentResponse_UnmarshalJSON data c
  = (component.mkContentResponse (component.last_title vs1 (component.cr_Title c))
                                 (component.cr_Components c), Some err).
Proof.
  intros Hd Hsplit Hts Herr. unfold component.ContentResponse_UnmarshalJSON.
  now rewrite Hd, Hsplit, (title_loop_fails _ _ _ _ _ _ Hts Herr).
Qed.

(** X19: when the titles decode and a typed object of the document does not
    become a component, [UnmarshalJSON] of a content response returns the
    error of the first such object; the components before it have been
    appended and the title has been replaced all the same. *)
Theorem X19_content_response_component_fails
        (data : string) (c : component.ContentResponse) (stage : component.ContentStage)
        (vs : list string) (tos1 tos2 : list component.TypedObject)
        (to : component.TypedObject) (vcs1 : list component.Component)
        (err : component.error) :
  component.json_Unmarshal_stage data = inr stage ->
  Forall2 (fun t v => component.getTitleByUnmarshalInterface (component.Config t) = inr v)
          (component.stage_Title stage) vs ->
  component.stage_Components stage = tos1 ++ to :: tos2 ->
  Forall2 (fun to vc => component.ToComponent to = inr vc) tos1 vcs1 ->
  component.ToComponent to = inl err ->
  component.ContentResponse_UnmarshalJSON data c
  = (component.mkContentResponse (component.last_title vs (component.cr_Title c))
                                 (component.cr_Components c ++ vcs1), Some err).
Proof.
  intros Hd Hts Hsplit Hcs Herr. unfold component.ContentResponse_UnmarshalJSON.
  rewrite Hd, (title_loop_ok _ _ _ Hts), Hsplit,
    (components_loop_fails _ _ _ _ _ _ Hcs Herr).
  reflexivity.
Qed.

Lemma metadata_loop_ok (ts : list component.TypedObject)
      (tvcs : list component.TitleComponent) (m : component.Metadata) :
  Forall2 component.title_of ts tvcs ->
  component.metadata_title_loop ts m
  = (component.mkMetadata (component.Type_ m) (component.Title m ++ tvcs)
                          (component.Accessor m), None).
Proof.
  intros Hall. revert m.
  induction Hall as [|t tvc ts tvcs (vc & Hvc & Htvc) Hall IH]; intros m.
  - simpl. rewrite app_nil_r. now destruct m.
  - cbn [component.metadata_title_loop]. rewrite Hvc, Htvc, IH. simpl.
    now rewrite <- app_assoc.
Qed.

Lemma metadata_loop_fails (ts1 ts2 : list component.TypedObject)
      (t : component.TypedObject) (tvcs1 : list component.TitleComponent)
      (m : component.Metadata) :
  Forall2 component.title_of ts1 tvcs1 ->
  (forall tvc, ~ component.title_of t tvc) ->
  exists err,
    component.metadata_title_loop (ts1 ++ t :: ts2) m
    = (component.mkMetadata (component.Type_ m) (component.Title m ++ tvcs1)
                            (component.Accessor m), Some err)
    /\ ((exists e, component.ToComponent t = inl e
                   /\ err = component.errors_Wrap e "unmarshaling title")
        \/ (exists vc, component.ToComponent t = inr vc
                       /\ err = component.errors_New
                                  "component in title isn't a title view component")).
Proof.
  intros Hall Hbad. revert m.
  induction Hall as [|t1 tvc ts tvcs (vc & Hvc & Htvc) Hall IH]; intros m.
  - cbn [app component.metadata_title_loop]. rewrite app_nil_r.
    destruct (component.ToComponent t) as [e|vc] eqn:Ht.
    + eexists. split; [now destruct m|]. left. eauto.
    + destruct (component.asTitleComponent vc) as [tvc|] eqn:Hvc.
      * destruct (Hbad tvc). exists vc. auto.
      * eexists. split; [now destruct m|]. right. eauto.
  - cbn [app component.metadata_title_loop]. rewrite Hvc, Htvc.
    destruct (IH (component.mkMetadata (component.Type_ m) (component.Title m ++ [tvc])
                                       (component.Accessor m)))
      as (err & Hloop & Hcases).
    exists err. split; [|exact Hcases]. rewrite Hloop. simpl.
    now rewrite <- app_assoc.
Qed.

(** X20: when the document decodes and every title becomes a title
    component, [UnmarshalJSON] of a metadata returns nil, replaces the type,
    appends the titles in order to the titles the metadata had, and leaves
    the accessor. *)
Theorem X20_metadata_decoded
        (data : string) (m : component.Metadata) (x : component.MetadataStage)
        (tvcs : list component.TitleComponent) :
  component.json_Unmarshal_x data = inr x ->
  Forall2 component.title_of (component.x_Title x) tvcs ->
  component.Metadata_UnmarshalJSON data m
  = (component.mkMetadata (component.x_Type x) (component.Title m ++ tvcs)
                          (component.Accessor m), None).
Proof.
  intros Hd Hts. unfold component.Metadata_UnmarshalJSON.
  now rewrite Hd, (metadata_loop_ok _ _ _ Hts).
Qed.

(** X21: when a title of the document does not become a title component,
    [UnmarshalJSON] of a metadata returns an error at the first such title:
    the error of [ToComponent] wrapped with "unmarshaling title", or "component
    in title isn't a title view component"; the receiver is changed all the
    same: its type is replaced and the titles before the failing one are
    appended. *)
Theorem X21_metadata_title_fails
        (data : string) (m : component.Metadata) (x : component.MetadataStage)
        (ts1 ts2 : list component.TypedObject) (t : component.TypedObject)
        (tvcs1 : list component.TitleComponent) :
  component.json_Unmarshal_x data = inr x ->
  component.x_Title x = ts1 ++ t :: ts2 ->
  Forall2 component.title_of ts1 tvcs1 ->
  (forall tvc, ~ component.title_of t tvc) ->
  exists err,
    component.Metadata_UnmarshalJSON data m
    = (component.mkMetadata (component.x_Type x) (component.Title m ++ tvcs1)
                            (component.Accessor m), Some err)
    /\ ((exists e, component.ToComponent t = inl e
                   /\ err = component.errors_Wrap e "unmarshaling title")
        \/ (exists vc, component.ToComponent t = inr vc
                       /\ err = component.errors_New
                                  "component in title isn't a title view component")).
Proof.
  intros Hd Hsplit Hts Hbad. unfold component.Metadata_UnmarshalJSON.
  rewrite Hd, Hsplit.
  exact (metadata_loop_fails ts1 ts2 t tvcs1 _ Hts Hbad).
Qed.

End ComponentFacts.

Lemma X17_content_response_decoded_witness :
  @component.ContentResponse_UnmarshalJSON component.toy_types component.toy_backend
    "doc" (@component.mkContentResponse component.toy_types ["t:old"] ["c0"])
  = (@component.mkContentResponse component.toy_types
       ["t:second"] ["c0"; "table"; "text"], None).
Proof.
  apply (@X17_content_response_decoded component.toy_types component.toy_backend
           "doc" (@component.mkContentResponse component.toy_types ["t:old"] ["c0"])
           (@component.mkContentStage component.toy_types
              [component.toy_object "first"; component.toy_object "second"]
              [component.toy_object "table"; component.toy_object "text"])
           ["first"; "second"] ["table"; "text"]).
  - vm_compute. reflexivity.
  - each_decodes.
  - each_decodes.
Defined.

Lemma X18_content_response_title_fails_witness :
  @component.ContentResponse_UnmarshalJSON component.toy_types component.toy_backend
    "doc2" (@component.mkContentResponse component.toy_types ["t:old"] ["c0"])
  = (@component.mkContentResponse component.toy_types ["t:first"] ["c0"],
     Some (@component.fmt_Errorf component.toy_types "title does not have a value")).
Proof.
  apply (@X18_content_response_title_fails component.toy_types component.toy_backend
           "doc2" (@component.mkContentResponse component.toy_types ["t:old"] ["c0"])
           (@component.mkContentStage component.toy_types
              [component.toy_object "first"; component.toy_object "{}"]
              [component.toy_object "table"])
           [component.toy_object "first"] [] (component.toy_object "{}") ["first"]).
  - vm_compute. reflexivity.
  - reflexivity.
  - each_decodes.
  - vm_compute. reflexivity.
Defined.

Lemma X19_content_response_component_fails_witness :
  @component.ContentResponse_UnmarshalJSON component.toy_types component.toy_backend
    "doc3" (@component.mkContentResponse component.toy_types ["t:old"] ["c0"])
  = (@component.mkContentResponse component.toy_types ["t:first"] ["c0"; "table"],
     Some (@component.errors_Errorf component.toy_types
             "unable to convert string to Component")).
Proof.
  apply (@X19_content_response_component_fails component.toy_types component.toy_backend
           "doc3" (@component.mkContentResponse component.toy_types ["t:old"] ["c0"])
           (@component.mkContentStage component.toy_types
              [component.toy_object "first"]
              [component.toy_object "table"; component.toy_object "?";
               component.toy_object "text"])
           ["first"] [component.toy_object "table"] [component.toy_object "text"]
           (component.toy_object "?") ["table"]).
  - vm_compute. reflexivity.
  - each_decodes.
  - reflexivity.
  - each_decodes.
  - vm_compute. reflexivity.
Defined.

Lemma X20_metadata_decoded_witness :
  @component.Metadata_UnmarshalJSON component.toy_types component.toy_backend
    "meta" (@component.mkMetadata component.toy_types "text" ["t0"] "acc")
  = (@component.mkMetadata component.toy_types "table" ["t0"; "t1"; "t2"] "acc", None).
Proof.
  apply (@X20_metadata_decoded component.toy_types component.toy_backend
           "meta" (@component.mkMetadata component.toy_types "text" ["t0"] "acc")
           (@component.mkMetadataStage component.toy_types "table"
              [component.toy_object "t1"; component.toy_object "t2"])
           ["t1"; "t2"]).
  - vm_compute. reflexivity.
  - repeat (first [apply List.Forall2_nil
                  | apply List.Forall2_cons; [eexists; split; vm_compute; reflexivity|]]).
Defined.

Lemma X21_metadata_title_fails_witness :
  exists err,
    @component.Metadata_UnmarshalJSON component.toy_types component.toy_backend
      "meta2" (@component.mkMetadata component.toy_types "text" ["t0"] "acc")
    = (@component.mkMetadata component.toy_types "table" ["t0"; "t1"] "acc", Some err).
Proof.
  destruct (@X21_metadata_title_fails component.toy_types component.toy_backend
              "meta2" (@component.mkMetadata component.toy_types "text" ["t0"] "acc")
              (@component.mkMetadataStage component.toy_types "table"
                 [component.toy_object "t1"; component.toy_object "x"])
              [component.toy_object "t1"] [] (component.toy_object "x") ["t1"])
    as (err & Hres & _).
  - vm_compute. reflexivity.
  - reflexivity.
  - repeat (first [apply List.Forall2_nil
                  | apply List.Forall2_cons; [eexists; split; vm_compute; reflexivity|]]).
  - intros tvc (vc & Hvc & Htvc). vm_compute in Hvc. injection Hvc as <-.
    vm_compute in Htvc. discriminate.
  - exists err. exact Hres.
Defined.
